(** * textrazor-go: a shallow embedding of the client and its dispatcher

    The development follows [textrazor.go].  Go strings are byte strings
    ([string] of [ascii]); Go's [int] is [Z]; a [map[string][]string] (the
    underlying type of [url.Values], [Params] and [http.Header]) is a [gmap]
    from keys to value lists, or nil.  The functions of Go's standard library
    that the client calls on those maps ([net/url]'s [Values] methods and
    [QueryEscape], [net/textproto]'s canonical header keys, the runtime's
    integer-to-string conversion) are written out from their Go definitions;
    the network, the URL parser and the JSON decoder are parameters. *)

From Stdlib Require Import ZArith Ascii String List Lia DecimalString.
From stdpp Require Import base option list gmap strings sorting.

Local Open Scope string_scope.
Local Open Scope Z_scope.

(** ** Bytes *)

Definition byte_val (c : ascii) : Z := Z.of_N (N_of_ascii c).

Definition byte_of (z : Z) : ascii := ascii_of_N (Z.to_N (z mod 256)).

Definition in_range (lo hi c : ascii) : bool :=
  (byte_val lo <=? byte_val c) && (byte_val c <=? byte_val hi).

Definition is_lower (c : ascii) : bool := in_range "a" "z" c.
Definition is_upper (c : ascii) : bool := in_range "A" "Z" c.
Definition is_digit (c : ascii) : bool := in_range "0" "9" c.

Definition byte_in (c : ascii) (set : string) : bool :=
  existsb (Ascii.eqb c) (list_ascii_of_string set).

(** ** [map[string][]string] *)

(** A Go map value is either nil or a reference to a table.  Reading a nil map
    behaves like reading an empty one; writing to it panics. *)
Inductive strings_map : Type :=
| map_nil
| map_of (m : gmap string (list string)).

(** [v[key]]: the zero value (a nil slice) when the key is absent. *)
Definition map_index (v : strings_map) (key : string) : list string :=
  match v with
  | map_nil => []
  | map_of m => default [] (m !! key)
  end.

(** [v[key] = vs]; [None] is the runtime panic "assignment to entry in nil map". *)
Definition map_assign (v : strings_map) (key : string) (vs : list string) : option strings_map :=
  match v with
  | map_nil => None
  | map_of m => Some (map_of (<[key := vs]> m))
  end.

(** [delete(v, key)]: a no-op on a nil map. *)
Definition map_delete (v : strings_map) (key : string) : strings_map :=
  match v with
  | map_nil => map_nil
  | map_of m => map_of (delete key m)
  end.

(** ** net/url *)

Module url.

Definition upperhex : string := "0123456789ABCDEF".

Definition hex_digit (n : Z) : ascii :=
  match String.get (Z.to_nat n) upperhex with
  | Some c => c
  | None => "0"%char
  end.

(** [shouldEscape(c, encodeQueryComponent)]. *)
Definition shouldEscape (c : ascii) : bool :=
  if is_lower c || is_upper c || is_digit c then false
  else if byte_in c "-_.~" then false
  else true.

(** [QueryEscape]: a space becomes '+', every other byte that should be
    escaped becomes '%' and two upper-case hexadecimal digits. *)
Fixpoint QueryEscape (s : string) : string :=
  match s with
  | EmptyString => EmptyString
  | String c s' =>
      if Ascii.eqb c " " then String "+" (QueryEscape s')
      else if shouldEscape c then
        String "%" (String (hex_digit (Z.shiftr (byte_val c) 4))
                   (String (hex_digit (Z.land (byte_val c) 15)) (QueryEscape s')))
      else String c (QueryEscape s')
  end.

(** [Values.Get]. *)
Definition Get (v : strings_map) (key : string) : string :=
  match map_index v key with
  | [] => ""
  | x :: _ => x
  end.

(** [Values.Set]: [v[key] = []string{value}]. *)
Definition Set_ (v : strings_map) (key value : string) : option strings_map :=
  map_assign v key [value].

(** [Values.Add]: [v[key] = append(v[key], value)]. *)
Definition Add (v : strings_map) (key value : string) : option strings_map :=
  map_assign v key (map_index v key ++ [value]).

(** [Values.Del]. *)
Definition Del (v : strings_map) (key : string) : strings_map :=
  map_delete v key.

(** Byte-wise lexicographic order on strings, the order of [sort.Strings]. *)
Definition str_le (a b : string) : Prop := String.leb a b = true.

#[global] Instance str_le_dec (a b : string) : Decision (str_le a b).
Proof. unfold str_le. apply _. Defined.

(** [sort.Strings]: keys of a map are pairwise distinct, so every sorting
    algorithm returns the same slice; merge sort stands for it. *)
Definition sort_Strings (keys : list string) : list string :=
  merge_sort str_le keys.

(** The inner loop of [Values.Encode] over the values of one key:
    [if buf.Len() > 0 { buf.WriteByte('&') }], then [key=value]. *)
Definition write_pair (keyEscaped : string) (buf : string) (value : string) : string :=
  (if (0 <? String.length buf)%nat then buf ++ "&" else buf)
    ++ keyEscaped ++ "=" ++ QueryEscape value.

Definition write_key (v : strings_map) (buf : string) (k : string) : string :=
  let vs := map_index v k in
  let keyEscaped := QueryEscape k in
  fold_left (write_pair keyEscaped) vs buf.

(** [Values.Encode], given the order [keys] in which [for k := range v]
    happened to enumerate the map: Go leaves that order unspecified. *)
Definition Encode_ranging (keys : list string) (v : strings_map) : string :=
  match v with
  | map_nil => ""
  | map_of _ => fold_left (write_key v) (sort_Strings keys) ""
  end.

(** The keys of a map, in the order in which [gmap] enumerates them. *)
Definition keys_of (v : strings_map) : list string :=
  match v with
  | map_nil => []
  | map_of m => (map_to_list m).*1
  end.

(** [keys] is a possible enumeration of [v] by [range]: every key once. *)
Definition range_order (v : strings_map) (keys : list string) : Prop :=
  keys ≡ₚ keys_of v.

Definition Encode (v : strings_map) : string :=
  Encode_ranging (keys_of v) v.

End url.

(** ** net/textproto and net/http headers *)

Module textproto.

(** [validHeaderFieldByte]: the token characters of RFC 7230. *)
Definition validHeaderFieldByte (c : ascii) : bool :=
  is_lower c || is_upper c || is_digit c || byte_in c "!#$%&'*+-.^_`|~".

(** The canonicalising loop: upper case at the start and after each dash,
    lower case elsewhere; [upper] says which of the two the next byte gets. *)
Fixpoint canonical (upper : bool) (s : string) : string :=
  match s with
  | EmptyString => EmptyString
  | String c s' =>
      let c' :=
        if upper && is_lower c then byte_of (byte_val c - 32)
        else if negb upper && is_upper c then byte_of (byte_val c + 32)
        else c in
      String c' (canonical (Ascii.eqb c' "-") s')
  end.

(** [CanonicalMIMEHeaderKey]: a key holding a byte that is no token character
    is returned unchanged. *)
Definition CanonicalMIMEHeaderKey (s : string) : string :=
  if forallb validHeaderFieldByte (list_ascii_of_string s) then canonical true s else s.

End textproto.

Module http.

Definition StatusOK : Z := 200.
Definition MethodGet : string := "GET".
Definition MethodPost : string := "POST".
Definition MethodPut : string := "PUT".
Definition MethodDelete : string := "DELETE".

(** [Header.Add]: appends under the canonical key; [None] is the panic of a
    write to a nil map. *)
Definition Header_Add (h : strings_map) (key value : string) : option strings_map :=
  let key := textproto.CanonicalMIMEHeaderKey key in
  map_assign h key (map_index h key ++ [value]).

(** [Header.Get]: the first value under the canonical key. *)
Definition Header_Get (h : strings_map) (key : string) : string :=
  match map_index h (textproto.CanonicalMIMEHeaderKey key) with
  | [] => ""
  | x :: _ => x
  end.

(** [Header.Values]: every value under the canonical key, in wire order. *)
Definition Header_Values (h : strings_map) (key : string) : list string :=
  map_index h (textproto.CanonicalMIMEHeaderKey key).

(** What [ioutil.ReadAll] makes of a response body. *)
Inductive BodyReader : Type :=
| reader_of (data : string)
| faultyReader (err : string).

Definition ReadAll (b : BodyReader) : string + string :=
  match b with
  | reader_of data => inl data
  | faultyReader err => inr err
  end.

Record Request : Type := mkRequest {
  Method : string;
  URL : string;
  Header : strings_map;
  RequestBody_ : string
}.

Record Response : Type := mkResponse {
  StatusCode : Z;
  ResponseHeader : strings_map;
  Body : BodyReader
}.

(** A [RoundTripper], as [http.Client.Do] sees it: a response or an error. *)
Definition RoundTripper : Type := Request -> Response + string.

End http.

(** ** Integers as strings *)

Module utf8.

Definition RuneError : Z := 0xFFFD.
Definition MaxRune : Z := 0x10FFFF.
Definition surrogateMin : Z := 0xD800.
Definition surrogateMax : Z := 0xDFFF.
Definition rune1Max : Z := 0x7F.
Definition rune2Max : Z := 0x7FF.
Definition rune3Max : Z := 0xFFFF.
Definition tx : Z := 0x80.
Definition t2 : Z := 0xC0.
Definition t3 : Z := 0xE0.
Definition t4 : Z := 0xF0.
Definition maskx : Z := 0x3F.

(** [byte(x)]: the low eight bits. *)
Definition byte (x : Z) : Z := x mod 256.

Definition bytes (l : list Z) : string :=
  string_of_list_ascii (map byte_of l).

Definition encode3 (r : Z) : string :=
  bytes [Z.lor t3 (byte (Z.shiftr r 12));
         Z.lor tx (Z.land (byte (Z.shiftr r 6)) maskx);
         Z.lor tx (Z.land (byte r) maskx)].

(** The runtime's [encoderune] on an [int32] rune. *)
Definition encoderune (r : Z) : string :=
  let i := r mod 2 ^ 32 in
  if i <=? rune1Max then bytes [byte r]
  else if i <=? rune2Max then
    bytes [Z.lor t2 (byte (Z.shiftr r 6)); Z.lor tx (Z.land (byte r) maskx)]
  else if (MaxRune <? i) || ((surrogateMin <=? i) && (i <=? surrogateMax)) then
    encode3 RuneError
  else if i <=? rune3Max then encode3 r
  else
    bytes [Z.lor t4 (byte (Z.shiftr r 18));
           Z.lor tx (Z.land (byte (Z.shiftr r 12)) maskx);
           Z.lor tx (Z.land (byte (Z.shiftr r 6)) maskx);
           Z.lor tx (Z.land (byte r) maskx)].

(** The runtime's [intstring], the conversion [string(v)] of an integer:
    [if int64(rune(v)) != v { v = runeError }], then [encoderune]. *)
Definition intstring (v : Z) : string :=
  let v := if (- 2 ^ 31 <=? v) && (v <? 2 ^ 31) then v else RuneError in
  encoderune v.

(** A valid Unicode scalar value. *)
Definition valid_rune (v : Z) : bool :=
  (0 <=? v) && (v <=? MaxRune) && negb ((surrogateMin <=? v) && (v <=? surrogateMax)).

(** [utf8.DecodeRuneInString] on the first bytes of a string: the rune and
    the rest, [RuneError] and one byte consumed on malformed input. *)
Definition continuation (c : ascii) : bool :=
  (0x80 <=? byte_val c) && (byte_val c <=? 0xBF).

Definition DecodeRune (s : string) : option (Z * string) :=
  match s with
  | EmptyString => None
  | String c0 s1 =>
      let b0 := byte_val c0 in
      if b0 <? 0x80 then Some (b0, s1)
      else
        match s1 with
        | String c1 s2 =>
            let b1 := byte_val c1 in
            if (0xC2 <=? b0) && (b0 <=? 0xDF) then
              if continuation c1
              then Some (Z.lor (Z.shiftl (Z.land b0 0x1F) 6) (Z.land b1 maskx), s2)
              else Some (RuneError, s1)
            else
              match s2 with
              | String c2 s3 =>
                  let b2 := byte_val c2 in
                  if (0xE0 <=? b0) && (b0 <=? 0xEF) then
                    if ((if b0 =? 0xE0 then 0xA0 else 0x80) <=? b1)
                       && (b1 <=? (if b0 =? 0xED then 0x9F else 0xBF))
                       && continuation c2
                    then Some (Z.lor (Z.lor (Z.shiftl (Z.land b0 0x0F) 12)
                                           (Z.shiftl (Z.land b1 maskx) 6))
                                     (Z.land b2 maskx), s3)
                    else Some (RuneError, s1)
                  else
                    match s3 with
                    | String c3 s4 =>
                        let b3 := byte_val c3 in
                        if (0xF0 <=? b0) && (b0 <=? 0xF4)
                           && ((if b0 =? 0xF0 then 0x90 else 0x80) <=? b1)
                           && (b1 <=? (if b0 =? 0xF4 then 0x8F else 0xBF))
                           && continuation c2 && continuation c3
                        then Some (Z.lor (Z.lor (Z.lor (Z.shiftl (Z.land b0 0x07) 18)
                                                       (Z.shiftl (Z.land b1 maskx) 12))
                                                (Z.shiftl (Z.land b2 maskx) 6))
                                         (Z.land b3 maskx), s4)
                        else Some (RuneError, s1)
                    | EmptyString => Some (RuneError, s1)
                    end
              | EmptyString => Some (RuneError, s1)
              end
        | EmptyString => Some (RuneError, s1)
        end
  end.

End utf8.

(** [strconv.Itoa], also what [%v] prints for an integer. *)
Definition Itoa (z : Z) : string := NilZero.string_of_int (Z.to_int z).

(** ** The client's data *)

Definition DefaultEndpoint : string := "http://api.textrazor.com".
Definition DefaultSecureEndpoint : string := "https://api.textrazor.com".
Definition DefaultUseCompression : bool := true.
Definition DefaultUseEncryption : bool := true.

Definition apiKeyHeader : string := "X-TextRazor-Key".
Definition contentTypeJSON : string := "application/json".
Definition contentTypeCSV : string := "application/csv".
Definition contentTypeURL : string := "application/x-www-form-urlencoded".

(** [type Params url.Values]; its methods forward to [url.Values]. *)
Abbreviation Params := strings_map.

Module Params.
Definition Add (p : Params) (key value : string) : option Params := url.Add p key value.
Definition Del (p : Params) (key : string) : Params := url.Del p key.
Definition Get (p : Params) (key : string) : string := url.Get p key.
Definition Set_ (p : Params) (key value : string) : option Params := url.Set_ p key value.
(** [Encode] returns [url.Values(p).Encode()] and a nil error. *)
Definition Encode (p : Params) : string * option string := (url.Encode p, None).
End Params.

(** [RequestBody]: anything with an [Encode() (string, error)] method. *)
Class RequestBody (B : Type) : Type := Encode : B -> string * option string.

#[global] Instance Params_RequestBody : RequestBody strings_map := Params.Encode.

Record rawRequest : Type := mk_rawRequest { rawRequest_Body : string }.

#[global] Instance rawRequest_RequestBody : RequestBody rawRequest :=
  fun r => (rawRequest_Body r, None).

(** The body of [textrazor_test.go] whose [Encode] always fails. *)
Inductive faultyBody : Type := mk_faultyBody.

#[global] Instance faultyBody_RequestBody : RequestBody faultyBody :=
  fun _ => ("", Some "bad body").

(** The errors [doRequest] and [Analyze] build with [fmt.Errorf], one
    constructor per format string, holding the values formatted into it. *)
Inductive GoError : Type :=
| ErrURIParsing (uri err : string)
| ErrBodyEncoding (err : string)
| ErrRequestCreation (err : string)
| ErrRequestExecution (err : string)
| ErrBodyRead (err : string)
| ErrStatusCode (code : Z)
| ErrBodyParsing (err : string)
| ErrOkField (ok : bool)
| ErrURLOrText
| ErrExtractors.

Definition fmt_bool (b : bool) : string := if b then "true" else "false".

(** The message of each error, as [fmt.Errorf] formats it. *)
Definition Error_message (e : GoError) : string :=
  match e with
  | ErrURIParsing uri err => "URI parsing failed '" ++ uri ++ "': " ++ err
  | ErrBodyEncoding err => "body request encoding failed: " ++ err
  | ErrRequestCreation err => "http request creation failed: " ++ err
  | ErrRequestExecution err => "http request execution failed: " ++ err
  | ErrBodyRead err => "http response body read failed: " ++ err
  | ErrStatusCode code => "unexpected status code: " ++ Itoa code
  | ErrBodyParsing err => "http response body parsing failed: " ++ err
  | ErrOkField ok => "unexpected 'ok' field value: " ++ fmt_bool ok
  | ErrURLOrText => "either 'url' or 'text' should be specified, not both"
  | ErrExtractors => "at least one 'extractors' should be specified"
  end.

(** The errors raised while the request is being built, before anything is
    handed to the transport. *)
Definition request_construction_failure (e : GoError) : bool :=
  match e with
  | ErrURIParsing _ _ | ErrBodyEncoding _ | ErrRequestCreation _ => true
  | _ => false
  end.

(** The errors of [Analyze]'s own checks. *)
Definition validation_error (e : GoError) : bool :=
  match e with
  | ErrURLOrText | ErrExtractors => true
  | _ => false
  end.

(** Addresses of heap objects. *)
Definition loc : Type := nat.

Record Dictionary : Type := mkDictionary {
  Dictionary_HTTPResponse : option loc;
  MatchType : string;
  CaseInsensitive : bool;
  ID : string;
  Language : string
}.

(** The types that implement [Response]. *)
Inductive ResponseType : Type :=
| EmptyResponse
| Analysis
| Account
| DictionaryT
| DictionaryEntry
| DictionaryEntryList
| Category
| CategoryList.

Record Client : Type := mkClient {
  apiKey : string;
  useCompression : bool;
  UseEncryption : bool;
  Endpoint : string;
  SecureEndpoint : string;
  httpTransport : http.RoundTripper
}.

Definition NewCustomClient (apiKey : string) (useCompression useEncryption : bool)
    (endpoint secureEndpoint : string) (transport : http.RoundTripper) : Client :=
  mkClient apiKey useCompression useEncryption endpoint secureEndpoint transport.

(** [DefaultHeaders]: [http.Header{"Content-Type": {contentType}}]. *)
Definition DefaultHeaders (contentType : string) : strings_map :=
  map_of {[ "Content-Type" := [contentType] ]}.

(** What a call does to the outside world, in order: a request handed to the
    transport together with its answer, and a run of the JSON decoder on the
    envelope at an address together with its error. *)
Inductive Event : Type :=
| EvDo (req : http.Request) (answer : http.Response + string)
| EvUnmarshal (envelope : loc) (err : option string).

Definition is_EvDo (e : Event) : bool :=
  match e with EvDo _ _ => true | _ => false end.

Definition is_EvUnmarshal (e : Event) : bool :=
  match e with EvUnmarshal _ _ => true | _ => false end.

(** ** The heap, the envelope and the dispatcher *)

Section Dispatcher.

(** [float32] values and the operation-specific fields of a result ([Analysis]'s
    entities, [Account]'s plan, ...) are only moved around by the client. *)
Context {float32 Payload : Type}.

(** [HTTPResponse]: [Status], [Headers] and [Body] carry the tag [json:"-"];
    [Response] is the interface value holding the pointer to the result. *)
Record HTTPResponse : Type := mkHTTPResponse {
  Status : Z;
  Headers : strings_map;
  Body : string;
  Time : float32;
  Response : option loc;
  Dictionaries : list Dictionary;
  Ok : bool;
  Error : string;
  Message : string
}.

(** A result object: its dynamic type, its [HTTPResponse] field (the
    back-reference, tagged [json:"-"]; [EmptyResponse] has none and keeps
    [None]) and its decoded fields. *)
Record Result : Type := mkResult {
  result_type : ResponseType;
  result_HTTPResponse : option loc;
  result_fields : Payload
}.

Record World : Type := mkWorld {
  envelopes : gmap loc HTTPResponse;
  results : gmap loc Result;
  trace : list Event
}.

(** The fields of an envelope and of its result that [json.Unmarshal] can see. *)
Record JSONView : Type := mkJSONView {
  view_Time : float32;
  view_Response : option Payload;
  view_Dictionaries : list Dictionary;
  view_Ok : bool;
  view_Error : string;
  view_Message : string
}.

(** What the client takes from its platform: zero values, [url.ParseRequestURI]
    (the parsed URL printed back, or an error), the checks of [http.NewRequest]
    on a method and a URL (an error, if any) and [json.Unmarshal], which maps a
    document and the fields as they are to the fields as decoded (those that did
    not occur in the document unchanged, [view_Response] to [None] on null) and
    an error, if any. *)
Record Platform : Type := mkPlatform {
  zero_float32 : float32;
  zero_fields : ResponseType -> Payload;
  url_ParseRequestURI : string -> string + string;
  http_NewRequest_check : string -> string -> option string;
  json_Unmarshal : string -> JSONView -> JSONView * option string
}.

Context (P : Platform).

(** A call returns a value, returns an error (with a nil result), or panics;
    what it did to the heap before stays done. *)
Inductive Res (A : Type) : Type :=
| Return (a : A)
| Fail (e : GoError)
| Panic (msg : string).
Arguments Return {A} a.
Arguments Fail {A} e.
Arguments Panic {A} msg.

Definition M (A : Type) : Type := World -> Res A * World.

Definition ret {A} (a : A) : M A := fun w => (Return a, w).

Definition fail {A} (e : GoError) : M A := fun w => (Fail e, w).

Definition panic {A} (msg : string) : M A := fun w => (Panic msg, w).

Definition bind {A B} (m : M A) (k : A -> M B) : M B :=
  fun w =>
    match m w with
    | (Return a, w') => k a w'
    | (Fail e, w') => (Fail e, w')
    | (Panic msg, w') => (Panic msg, w')
    end.

Notation "x <- m ;; k" := (bind m (fun x => k))
  (at level 100, m at next level, right associativity).
Notation "m ;;; k" := (bind m (fun _ => k))
  (at level 100, right associativity).

(** [x, err := f(...); if err != nil { return nil, wrap(err) }]. *)
Definition try {A} (wrap : string -> GoError) (r : A + string) : M A :=
  match r with
  | inl a => ret a
  | inr err => fail (wrap err)
  end.

Definition log (e : Event) : M unit :=
  fun w => (Return tt, mkWorld (envelopes w) (results w) (trace w ++ [e])).

(** [&T{}]: a fresh zero-valued result of type [T]. *)
Definition new_result (T : ResponseType) : M loc :=
  fun w =>
    let l := fresh (dom (results w)) in
    (Return l,
     mkWorld (envelopes w) (<[l := mkResult T None (zero_fields P T)]> (results w)) (trace w)).

(** [&HTTPResponse{Status: ..., Headers: ..., Body: ..., Response: ...}]. *)
Definition new_HTTPResponse (status : Z) (headers : strings_map) (body : string)
    (response : loc) : M loc :=
  fun w =>
    let l := fresh (dom (envelopes w)) in
    (Return l,
     mkWorld (<[l := mkHTTPResponse status headers body (zero_float32 P) (Some response)
                       [] false "" ""]> (envelopes w))
             (results w) (trace w)).

Definition load_envelope (l : loc) : M HTTPResponse :=
  fun w =>
    match envelopes w !! l with
    | Some r => (Return r, w)
    | None => (Panic "invalid memory address or nil pointer dereference", w)
    end.

(** [setHTTPResponse]: every result type stores the pointer in its
    [HTTPResponse] field, except [EmptyResponse], whose method has an empty
    body. *)
Definition set_back_reference (r : loc) (t : Result) : Result :=
  match result_type t with
  | EmptyResponse => t
  | _ => mkResult (result_type t) (Some r) (result_fields t)
  end.

Definition setHTTPResponse (response : loc) (r : loc) : M unit :=
  fun w =>
    match results w !! response with
    | Some t =>
        (Return tt,
         mkWorld (envelopes w) (<[response := set_back_reference r t]> (results w)) (trace w))
    | None => (Panic "invalid memory address or nil pointer dereference", w)
    end.

(** [http.NewRequest]: an empty method means GET; the header starts as an
    empty, allocated map. *)
Definition http_NewRequest (method urlStr body : string) : http.Request + string :=
  let method := if String.eqb method "" then http.MethodGet else method in
  match http_NewRequest_check P method urlStr with
  | Some err => inr err
  | None => inl (http.mkRequest method urlStr (map_of ∅) body)
  end.

(** [client.Do(req)] with [client := &http.Client{Transport: c.httpTransport}]. *)
Definition client_Do (c : Client) (req : http.Request) : M (http.Response + string) :=
  let answer := httpTransport c req in
  log (EvDo req answer) ;;; ret answer.

(** [ParseBody]: [json.Unmarshal(r.Body, r)].  The decoder writes the tagged
    fields of the envelope and, through [r.Response], the fields of the
    result; [Status], [Headers], [Body] and the result's back-reference are
    out of its reach. *)
Definition ParseBody (l : loc) : M (option string) :=
  r <- load_envelope l ;;
  fun w =>
    let target := r.(Response) ≫= (fun t => results w !! t) in
    let view := mkJSONView (Time r) (result_fields <$> target) (Dictionaries r)
                           (Ok r) (Error r) (Message r) in
    let '(view', err) := json_Unmarshal P (Body r) view in
    let r' := mkHTTPResponse (Status r) (Headers r) (Body r) (view_Time view')
                (match view_Response view' with Some _ => Response r | None => None end)
                (view_Dictionaries view') (view_Ok view') (view_Error view')
                (view_Message view') in
    let results' :=
      match r.(Response), target, view_Response view' with
      | Some t, Some old, Some fields' =>
          <[t := mkResult (result_type old) (result_HTTPResponse old) fields']> (results w)
      | _, _, _ => results w
      end in
    (Return err, mkWorld (<[l := r']> (envelopes w)) results' (trace w ++ [EvUnmarshal l err])).

(** [doRequest]: every error return gives a nil [*HTTPResponse]. *)
Definition doRequest {B} `{RequestBody B} (c : Client) (path method : string)
    (headers : strings_map) (body : option B) (response : loc) : M loc :=
  (* set endpointURL *)
  let endpointURL := if UseEncryption c then SecureEndpoint c else Endpoint c in
  (* generate URL *)
  u <- try (ErrURIParsing (endpointURL ++ path)) (url_ParseRequestURI P (endpointURL ++ path)) ;;
  (* generate the request body *)
  bodyStr <- match body with
             | None => ret ""
             | Some b =>
                 match Encode b with
                 | (_, Some err) => fail (ErrBodyEncoding err)
                 | (s, None) => ret s
                 end
             end ;;
  (* create a Request with the URL and the Body *)
  req <- try ErrRequestCreation (http_NewRequest method u bodyStr) ;;
  (* set headers *)
  let req_Header := match headers with map_nil => http.Header req | _ => headers end in
  match http.Header_Add req_Header apiKeyHeader (apiKey c) with
  | None => panic "assignment to entry in nil map"
  | Some h =>
      let req := http.mkRequest (http.Method req) (http.URL req) h (http.RequestBody_ req) in
      (* execute the request *)
      answer <- client_Do c req ;;
      resp <- try ErrRequestExecution answer ;;
      (* get the response body *)
      respBody <- try ErrBodyRead (http.ReadAll (http.Body resp)) ;;
      (* build the response struct and decode json if request is successful *)
      httpResponse <- new_HTTPResponse (http.StatusCode resp) (http.ResponseHeader resp)
                        respBody response ;;
      setHTTPResponse response httpResponse ;;;
      if negb (http.StatusCode resp =? http.StatusOK) then
        fail (ErrStatusCode (http.StatusCode resp))
      else
        err <- ParseBody httpResponse ;;
        match err with
        | Some e => fail (ErrBodyParsing e)
        | None =>
            r <- load_envelope httpResponse ;;
            if negb (Ok r) then fail (ErrOkField (Ok r))
            else ret httpResponse
        end
  end.

(** ** The façade *)

Definition is_empty (s : string) : bool := String.eqb s "".

(** [Analyze]. *)
Definition Analyze (c : Client) (params : Params) : M loc :=
  analysis <- new_result Analysis ;;
  if (is_empty (Params.Get params "text") && is_empty (Params.Get params "url"))
     || (negb (is_empty (Params.Get params "text")) && negb (is_empty (Params.Get params "url")))
  then fail ErrURLOrText
  else if is_empty (Params.Get params "extractors") then fail ErrExtractors
  else
    doRequest c "/" http.MethodPost (DefaultHeaders contentTypeURL) (Some params) analysis ;;;
    ret analysis.

(** [AnalyzeText] and [AnalyzeURL] write to the caller's map before they
    delegate: the first component of the result is that map after the call. *)
Definition AnalyzeText (c : Client) (text : string) (params : Params) (w : World)
    : Params * (Res loc * World) :=
  match Params.Set_ params "text" text with
  | None => (params, (Panic "assignment to entry in nil map", w))
  | Some params' => (params', Analyze c params' w)
  end.

Definition AnalyzeURL (c : Client) (urlStr : string) (params : Params) (w : World)
    : Params * (Res loc * World) :=
  match Params.Set_ params "url" urlStr with
  | None => (params, (Panic "assignment to entry in nil map", w))
  | Some params' => (params', Analyze c params' w)
  end.

Definition no_body : option rawRequest := None.

Definition GetAccount (c : Client) : M loc :=
  account <- new_result Account ;;
  doRequest c "/account/" http.MethodGet map_nil no_body account ;;;
  ret account.

Definition GetDictionaries (c : Client) : M loc :=
  e <- new_result EmptyResponse ;;
  doRequest c "/entities/" http.MethodGet map_nil no_body e.

Definition GetDictionary (c : Client) (ID : string) : M loc :=
  dict <- new_result DictionaryT ;;
  doRequest c ("/entities/" ++ ID) http.MethodGet map_nil no_body dict ;;;
  ret dict.

Definition DeleteDictionary (c : Client) (ID : string) : M loc :=
  e <- new_result EmptyResponse ;;
  doRequest c ("/entities/" ++ ID) http.MethodDelete map_nil no_body e.

(** [GetDictionaryEntries]: [string(limit)] and [string(offset)] are
    conversions of an [int] to a string. *)
Definition GetDictionaryEntries (c : Client) (ID : string) (limit offset : Z) : M loc :=
  let params : Params :=
    map_of {[ "limit" := [utf8.intstring limit]; "offset" := [utf8.intstring offset] ]} in
  el <- new_result DictionaryEntryList ;;
  doRequest c ("/entities/" ++ ID ++ "/_all") http.MethodGet map_nil (Some params) el ;;;
  ret el.

Definition GetDictionaryEntry (c : Client) (dictID entryID : string) : M loc :=
  e <- new_result DictionaryEntry ;;
  doRequest c ("/entities/" ++ dictID ++ "/" ++ entryID) http.MethodGet map_nil no_body e ;;;
  ret e.

Definition DeleteDictionaryEntry (c : Client) (dictID entryID : string) : M loc :=
  e <- new_result EmptyResponse ;;
  doRequest c ("/entities/" ++ dictID ++ "/" ++ entryID) http.MethodDelete map_nil no_body e.

Definition CreateClassifierFromJSON (c : Client) (ID jsonStr : string) : M loc :=
  e <- new_result EmptyResponse ;;
  doRequest c ("/categories/" ++ ID) http.MethodPut (DefaultHeaders contentTypeJSON)
    (Some (mk_rawRequest jsonStr)) e.

Definition CreateClassifierFromCSV (c : Client) (ID csvStr : string) : M loc :=
  e <- new_result EmptyResponse ;;
  doRequest c ("/categories/" ++ ID) http.MethodPut (DefaultHeaders contentTypeCSV)
    (Some (mk_rawRequest csvStr)) e.

Definition DeleteClassifier (c : Client) (ID : string) : M loc :=
  e <- new_result EmptyResponse ;;
  doRequest c ("/categories/" ++ ID) http.MethodDelete map_nil no_body e.

Definition GetClassifierCategories (c : Client) (ID : string) (limit offset : Z) : M loc :=
  let params : Params :=
    map_of {[ "limit" := [utf8.intstring limit]; "offset" := [utf8.intstring offset] ]} in
  cl <- new_result CategoryList ;;
  doRequest c ("/categories/" ++ ID ++ "/_all") http.MethodGet map_nil (Some params) cl ;;;
  ret cl.

Definition GetClassifierCategory (c : Client) (clID catID : string) : M loc :=
  cat <- new_result Category ;;
  doRequest c ("/categories/" ++ clID ++ "/" ++ catID) http.MethodGet map_nil no_body cat ;;;
  ret cat.

Definition DeleteClassifierCategory (c : Client) (clID catID : string) : M loc :=
  e <- new_result EmptyResponse ;;
  doRequest c ("/categories/" ++ clID ++ "/" ++ catID) http.MethodDelete map_nil no_body e.

(** The events a call added to the trace. *)
Definition events_of (w w' : World) : list Event :=
  drop (length (trace w)) (trace w').

End Dispatcher.

Arguments HTTPResponse : clear implicits.
Arguments Result : clear implicits.
Arguments World : clear implicits.
Arguments JSONView : clear implicits.
Arguments Platform : clear implicits.

(** ** Test doubles, after [textrazor_test.go] *)

Module Fake.

Definition testAPIKey : string := "1234567890".
Definition testURL : string := "https://news.google.com".
Definition testText : string := "Barclays misled shareholders.".

(** [fakeTransport.RoundTrip]. *)
Definition FakeTransport (responseStatus : Z) (responseBody : string) (shouldFail : bool)
    : http.RoundTripper :=
  fun _ =>
    if shouldFail then inr "expected error"
    else
      inl (http.mkResponse responseStatus
             (map_of {[ "Content-Type" := ["application/json"] ]})
             (if String.eqb responseBody "FAKE_READ_ISSUE"
              then http.faultyReader "expected error"
              else http.reader_of responseBody)).

Definition dq : string := String (ascii_of_nat 34) "".

Definition errorResponseBody : string :=
  "{" ++ dq ++ "ok" ++ dq ++ ": false, " ++ dq ++ "response" ++ dq ++ ": {}}".

Definition dictDeleteResponseBody : string :=
  "{" ++ dq ++ "time" ++ dq ++ ":0.004913," ++ dq ++ "ok" ++ dq ++ ":true}".

(** A decoder that knows the documents above: in the first [ok] is false, in
    the second it is true and there is no [response]; the empty document is
    an error, as is everything else. *)
Definition table_Unmarshal (doc : string) (v : JSONView Z string) : JSONView Z string * option string :=
  if String.eqb doc errorResponseBody then
    (mkJSONView (view_Time v) (view_Response v) (view_Dictionaries v) false
       (view_Error v) (view_Message v), None)
  else if String.eqb doc dictDeleteResponseBody then
    (mkJSONView 4913 (view_Response v) (view_Dictionaries v) true
       (view_Error v) (view_Message v), None)
  else if String.eqb doc "" then (v, Some "unexpected end of JSON input")
  else (v, Some "invalid character looking for beginning of value").

(** Times in microseconds, result fields as text; URLs must start with a
    scheme, methods must be made of token characters. *)
Definition platform : Platform Z string :=
  mkPlatform 0 (fun _ => "")
    (fun s => if String.prefix "http://" s || String.prefix "https://" s
              then inl s else inr "invalid URI for request")
    (fun method _ =>
       if forallb textproto.validHeaderFieldByte (list_ascii_of_string method)
       then None else Some "net/http: invalid method")
    table_Unmarshal.

Definition client (responseStatus : Z) (responseBody : string) : Client :=
  NewCustomClient testAPIKey DefaultUseCompression DefaultUseEncryption
    DefaultEndpoint DefaultSecureEndpoint (FakeTransport responseStatus responseBody false).

Definition empty_world : World Z string := mkWorld ∅ ∅ [].

(** A heap that holds one zero-valued result of the given type at address 0. *)
Definition world_with (T : ResponseType) : World Z string :=
  mkWorld ∅ {[ 0%nat := mkResult T None "" ]} [].

End Fake.

Arguments Return {A} a.
Arguments Fail {A} e.
Arguments Panic {A} msg.

(** ** Vocabulary of the statements *)

(** A sequence of [Add] calls, run from left to right; [None] is a panic. *)
Fixpoint add_all (p : Params) (calls : list (string * string)) : option Params :=
  match calls with
  | [] => Some p
  | (key, value) :: rest =>
      match Params.Add p key value with
      | None => None
      | Some p' => add_all p' rest
      end
  end.

(** The values a sequence of calls adds under one key, in call order. *)
Definition values_for (key : string) (calls : list (string * string)) : list string :=
  (filter (fun kv => kv.1 = key) calls).*2.

(** A form-encoded payload, said directly: the pairs [key=value], escaped,
    separated by '&'. *)
Definition encode_pair (kv : string * string) : string :=
  url.QueryEscape kv.1 ++ "=" ++ url.QueryEscape kv.2.

Definition encode_pairs (pairs : list (string * string)) : string :=
  String.concat "&" (map encode_pair pairs).

(** The pairs of a map, keys in the given order, the values of each key in
    the order in which the map holds them. *)
Definition pairs_in_order (v : strings_map) (keys : list string) : list (string * string) :=
  flat_map (fun k => map (pair k) (map_index v k)) keys.

(** Strictly ascending in byte-wise lexicographic order. *)
Definition str_lt (a b : string) : Prop := String.ltb a b = true.

(** ** The runs of [doRequest], exit by exit *)

Section Runs.

Context {float32 Payload : Type} (P : Platform float32 Payload).
Context {B : Type} `{RequestBody B}.
Context (c : Client) (path method : string) (headers : strings_map)
        (body : option B) (response : loc) (w : World float32 Payload).

Definition endpoint_path : string :=
  (if UseEncryption c then SecureEndpoint c else Endpoint c) ++ path.

(** The payload: empty without a body, else what [Encode] returns. *)
Definition encodes (bodyStr : string) : Prop :=
  match body with
  | None => bodyStr = ""
  | Some b => Encode b = (bodyStr, None)
  end.

(** The request was built and the API key added: [req] goes to the transport. *)
Inductive prepared : http.Request -> Prop :=
| prepared_intro u bodyStr req0 h :
    url_ParseRequestURI P endpoint_path = inl u ->
    encodes bodyStr ->
    http_NewRequest P method u bodyStr = inl req0 ->
    http.Header_Add (match headers with map_nil => http.Header req0 | _ => headers end)
      apiKeyHeader (apiKey c) = Some h ->
    prepared (http.mkRequest (http.Method req0) (http.URL req0) h (http.RequestBody_ req0)).

(** The three exits before the transport. *)
Inductive construction_failed : GoError -> Prop :=
| failed_uri err :
    url_ParseRequestURI P endpoint_path = inr err ->
    construction_failed (ErrURIParsing endpoint_path err)
| failed_encoding u b s err :
    url_ParseRequestURI P endpoint_path = inl u ->
    body = Some b ->
    Encode b = (s, Some err) ->
    construction_failed (ErrBodyEncoding err)
| failed_creation u bodyStr err :
    url_ParseRequestURI P endpoint_path = inl u ->
    encodes bodyStr ->
    http_NewRequest P method u bodyStr = inr err ->
    construction_failed (ErrRequestCreation err).

(** In [w'] a new envelope at [l] holds the status, headers and body of the
    response, and the result [t] has been given it through
    [setHTTPResponse]. *)
Record attached (w' : World float32 Payload) (l : loc) (resp : http.Response)
    (data : string) (t : Result Payload) : Prop := mk_attached {
  attached_fresh : envelopes w !! l = None;
  attached_envelope :
    exists r, envelopes w' !! l = Some r
      /\ Status r = http.StatusCode resp
      /\ Headers r = http.ResponseHeader resp
      /\ Body r = data;
  attached_result :
    exists t', results w' !! response = Some t'
      /\ result_type t' = result_type t
      /\ result_HTTPResponse t' = result_HTTPResponse (set_back_reference l t)
}.

Definition envelope_Ok (w' : World float32 Payload) (l : loc) (ok : bool) : Prop :=
  exists r, envelopes w' !! l = Some r /\ Ok r = ok.

(** The exits of [doRequest]: what it returns and the heap it leaves. *)
Inductive run : Res loc -> World float32 Payload -> Prop :=
| run_construction_failed e :
    construction_failed e ->
    run (Fail e) w
| run_execution_failed req err :
    prepared req ->
    httpTransport c req = inr err ->
    run (Fail (ErrRequestExecution err))
        (mkWorld (envelopes w) (results w) (trace w ++ [EvDo req (inr err)]))
| run_read_failed req resp err :
    prepared req ->
    httpTransport c req = inl resp ->
    http.Body resp = http.faultyReader err ->
    run (Fail (ErrBodyRead err))
        (mkWorld (envelopes w) (results w) (trace w ++ [EvDo req (inl resp)]))
| run_no_result req resp data w' msg :
    prepared req ->
    httpTransport c req = inl resp ->
    http.Body resp = http.reader_of data ->
    results w !! response = None ->
    results w' = results w ->
    events_of w w' = [EvDo req (inl resp)] ->
    run (Panic msg) w'
| run_status req resp data t l w' :
    prepared req ->
    httpTransport c req = inl resp ->
    http.Body resp = http.reader_of data ->
    results w !! response = Some t ->
    attached w' l resp data t ->
    http.StatusCode resp <> http.StatusOK ->
    events_of w w' = [EvDo req (inl resp)] ->
    run (Fail (ErrStatusCode (http.StatusCode resp))) w'
| run_parse_failed req resp data t l w' err :
    prepared req ->
    httpTransport c req = inl resp ->
    http.Body resp = http.reader_of data ->
    results w !! response = Some t ->
    attached w' l resp data t ->
    http.StatusCode resp = http.StatusOK ->
    events_of w w' = [EvDo req (inl resp); EvUnmarshal l (Some err)] ->
    run (Fail (ErrBodyParsing err)) w'
| run_not_ok req resp data t l w' :
    prepared req ->
    httpTransport c req = inl resp ->
    http.Body resp = http.reader_of data ->
    results w !! response = Some t ->
    attached w' l resp data t ->
    http.StatusCode resp = http.StatusOK ->
    events_of w w' = [EvDo req (inl resp); EvUnmarshal l None] ->
    envelope_Ok w' l false ->
    run (Fail (ErrOkField false)) w'
| run_ok req resp data t l w' :
    prepared req ->
    httpTransport c req = inl resp ->
    http.Body resp = http.reader_of data ->
    results w !! response = Some t ->
    attached w' l resp data t ->
    http.StatusCode resp = http.StatusOK ->
    events_of w w' = [EvDo req (inl resp); EvUnmarshal l None] ->
    envelope_Ok w' l true ->
    run (Return l) w'.

End Runs.

(** ** More vocabulary: what a payload holds *)

(** The pairs [Values.Encode] writes for a map: keys sorted, the values of
    each key in the order in which the map holds them. *)
Definition written_pairs (v : strings_map) : list (string * string) :=
  pairs_in_order v (url.sort_Strings (url.keys_of v)).

(** The pairs of one key, and of all the others. *)
Definition pairs_of (key : string) (pairs : list (string * string)) : list (string * string) :=
  filter (fun kv => kv.1 = key) pairs.

Definition pairs_but (key : string) (pairs : list (string * string)) : list (string * string) :=
  filter (fun kv => kv.1 <> key) pairs.

(** The bytes [QueryEscape] lets through unchanged. *)
Definition unreserved (c : ascii) : bool :=
  is_lower c || is_upper c || is_digit c || byte_in c "-_.~".

(** The bytes that occur in an escaped string. *)
Definition escaped_byte (c : ascii) : bool :=
  unreserved c || Ascii.eqb c "+" || Ascii.eqb c "%".

(** The value of a hexadecimal digit, as [net/url]'s [unhex] reads it. *)
Definition unhex (c : ascii) : Z :=
  if is_digit c then byte_val c - byte_val "0"
  else if in_range "a" "f" c then byte_val c - byte_val "a" + 10
  else if in_range "A" "F" c then byte_val c - byte_val "A" + 10
  else 0.

(** The first byte an escaped string stands for, and the rest of it: the
    step of [net/url]'s [QueryUnescape]. *)
Definition unescape_head (s : string) : option (ascii * string) :=
  match s with
  | EmptyString => None
  | String "+" rest => Some (" "%char, rest)
  | String "%" (String h (String l rest)) => Some (byte_of (unhex h * 16 + unhex l), rest)
  | String "%" _ => None
  | String c rest => Some (c, rest)
  end.

(** [s] up to the first [sep], and what follows that [sep], if there is one. *)
Fixpoint cut (sep : ascii) (s : string) : string * option string :=
  match s with
  | EmptyString => (EmptyString, None)
  | String c rest =>
      if Ascii.eqb c sep then (EmptyString, Some rest)
      else let '(before, after) := cut sep rest in (String c before, after)
  end.

Definition occurs (c : ascii) (s : string) : Prop := In c (list_ascii_of_string s).

(** The 256 bytes. *)
Definition all_bytes : list ascii := map byte_of (seqZ 0 256).

(** What [QueryEscape] writes for one byte. *)
Definition escape_byte (c : ascii) : string := url.QueryEscape (String c "").

(** ** What a run of the dispatcher leaves alone *)

Section Untouched.

Context {float32 Payload : Type}.

(** From [w] to [w']: the trace has only grown, the envelopes that were there
    are as they were, at most one is new, no result but the target has been
    written to and the target is of the type it was. *)
Record untouched (response : loc) (w w' : World float32 Payload) : Prop := mk_untouched {
  trace_extended : trace w' = (trace w ++ events_of w w')%list;
  envelopes_kept : forall l r, envelopes w !! l = Some r -> envelopes w' !! l = Some r;
  one_envelope_new :
    forall l1 l2, envelopes w !! l1 = None -> envelopes w !! l2 = None ->
                  is_Some (envelopes w' !! l1) -> is_Some (envelopes w' !! l2) -> l1 = l2;
  results_kept : forall l, l <> response -> results w' !! l = results w !! l;
  result_type_kept :
    result_type <$> results w' !! response = result_type <$> results w !! response
}.

End Untouched.

(** ** The rest of the client *)

Module Entry.

(** [DictionaryEntry] as a value; [Data] is a map that may be nil. *)
Record DictionaryEntry : Type := mkDictionaryEntry {
  HTTPResponse : option loc;
  ID : string;
  Text : string;
  Data : option (gmap string string)
}.

Record DictionaryEntryList : Type := mkDictionaryEntryList {
  List_HTTPResponse : option loc;
  Offset : Z;
  Limit : Z;
  Total : Z;
  Entries : list DictionaryEntry
}.

End Entry.

(** [http.Transport], as far as the client sets it. *)
Record Transport : Type := mkTransport { DisableCompression : bool }.

(** [DefaultTransport]. *)
Definition DefaultTransport (useCompression : bool) : Transport :=
  mkTransport (negb useCompression).

Section Facade.

Context {float32 Payload : Type} (P : Platform float32 Payload).

(** [json.Marshal] on a [Dictionary] and on a slice of entries, and the
    round trips of an [http.Transport], are the platform's. *)
Context (json_Marshal_Dictionary : Dictionary -> string * option string).
Context (json_Marshal_entries : list Entry.DictionaryEntry -> string * option string).
Context (RoundTrip : Transport -> http.RoundTripper).

(** [Dictionary.Encode]: [json.Marshal(d)]. *)
Definition Dictionary_Encode : RequestBody Dictionary :=
  fun d => json_Marshal_Dictionary d.

(** [DictionaryEntryList.Encode]: [json.Marshal(l.Entries)]. *)
Definition DictionaryEntryList_Encode : RequestBody Entry.DictionaryEntryList :=
  fun l => json_Marshal_entries (Entry.Entries l).

(** [NewClient]: the defaults and a default transport. *)
Definition NewClient (apiKey : string) : Client :=
  NewCustomClient apiKey DefaultUseCompression DefaultUseEncryption
    DefaultEndpoint DefaultSecureEndpoint (RoundTrip (DefaultTransport DefaultUseCompression)).

Definition CreateDictionary (c : Client) (d : Dictionary) : M loc :=
  bind (new_result P EmptyResponse) (fun e =>
    doRequest (H := Dictionary_Encode) P c ("/entities/" ++ ID d) http.MethodPut
      (DefaultHeaders contentTypeJSON) (Some d) e).

Definition AddDictionaryEntries (c : Client) (ID : string) (e : list Entry.DictionaryEntry)
    : M loc :=
  bind (new_result P EmptyResponse) (fun r =>
    doRequest (H := DictionaryEntryList_Encode) P c ("/entities/" ++ ID ++ "/")
      http.MethodPost (DefaultHeaders contentTypeJSON)
      (Some (Entry.mkDictionaryEntryList None 0 0 0 e)) r).

Definition AddDictionaryEntry (c : Client) (ID : string) (e : Entry.DictionaryEntry) : M loc :=
  AddDictionaryEntries c ID [e].

(** An envelope as [checkHTTPResponse] of the tests wants it, and new. *)
Definition valid_envelope (w w' : World float32 Payload) (e : loc) : Prop :=
  envelopes w !! e = None
  /\ exists r, envelopes w' !! e = Some r /\ Status r = http.StatusOK /\ Ok r = true.

(** A new result of type [T] at [l] that points to such an envelope. *)
Definition valid_result (T : ResponseType) (w w' : World float32 Payload) (l : loc) : Prop :=
  results w !! l = None
  /\ exists t e,
       results w' !! l = Some t
       /\ result_type t = T
       /\ result_HTTPResponse t = Some e
       /\ valid_envelope w w' e.

(** Every request of the call has this method, this path behind the
    client's endpoint, this content type (or none), the client's key as the
    one value of its header, and this payload. *)
Definition routed (c : Client) (w w' : World float32 Payload) (method path : string)
    (contentType : option string) (payload : string) : Prop :=
  forall req answer,
    EvDo req answer ∈ events_of w w' ->
    http.Method req = method
    /\ url_ParseRequestURI P
         ((if UseEncryption c then SecureEndpoint c else Endpoint c) ++ path)
       = inl (http.URL req)
    /\ map_index (http.Header req) "Content-Type"
       = match contentType with Some ct => [ct] | None => [] end
    /\ http.Header_Values (http.Header req) apiKeyHeader = [apiKey c]
    /\ http.RequestBody_ req = payload
    /\ answer = httpTransport c req.

(** The calls that hand back a typed result, with the type of that result. *)
Inductive typed_call (c : Client) : ResponseType -> M loc -> Prop :=
| typed_Analyze params :
    typed_call c Analysis (Analyze P c params)
| typed_GetAccount :
    typed_call c Account (GetAccount P c)
| typed_GetDictionary ID :
    typed_call c DictionaryT (GetDictionary P c ID)
| typed_GetDictionaryEntries ID limit offset :
    typed_call c DictionaryEntryList (GetDictionaryEntries P c ID limit offset)
| typed_GetDictionaryEntry dictID entryID :
    typed_call c DictionaryEntry (GetDictionaryEntry P c dictID entryID)
| typed_GetClassifierCategories ID limit offset :
    typed_call c CategoryList (GetClassifierCategories P c ID limit offset)
| typed_GetClassifierCategory clID catID :
    typed_call c Category (GetClassifierCategory P c clID catID).

(** The calls that hand back the envelope itself. *)
Inductive envelope_call (c : Client) : M loc -> Prop :=
| envelope_CreateDictionary d :
    envelope_call c (CreateDictionary c d)
| envelope_GetDictionaries :
    envelope_call c (GetDictionaries P c)
| envelope_DeleteDictionary ID :
    envelope_call c (DeleteDictionary P c ID)
| envelope_AddDictionaryEntries ID e :
    envelope_call c (AddDictionaryEntries c ID e)
| envelope_AddDictionaryEntry ID e :
    envelope_call c (AddDictionaryEntry c ID e)
| envelope_DeleteDictionaryEntry dictID entryID :
    envelope_call c (DeleteDictionaryEntry P c dictID entryID)
| envelope_CreateClassifierFromJSON ID jsonStr :
    envelope_call c (CreateClassifierFromJSON P c ID jsonStr)
| envelope_CreateClassifierFromCSV ID csvStr :
    envelope_call c (CreateClassifierFromCSV P c ID csvStr)
| envelope_DeleteClassifier ID :
    envelope_call c (DeleteClassifier P c ID)
| envelope_DeleteClassifierCategory clID catID :
    envelope_call c (DeleteClassifierCategory P c clID catID).

(** The payload of the two listing calls. *)
Definition limit_offset_payload (limit offset : Z) : string :=
  "limit=" ++ url.QueryEscape (utf8.intstring limit)
  ++ "&offset=" ++ url.QueryEscape (utf8.intstring offset).

(** The table of the operations: method, path, content type and payload of
    each call. *)
Inductive route (c : Client) : M loc -> string -> string -> option string -> string -> Prop :=
| route_Analyze params :
    route c (Analyze P c params) "POST" "/" (Some contentTypeURL) (url.Encode params)
| route_GetAccount :
    route c (GetAccount P c) "GET" "/account/" None ""
| route_CreateDictionary d :
    route c (CreateDictionary c d) "PUT" ("/entities/" ++ ID d) (Some contentTypeJSON)
      (json_Marshal_Dictionary d).1
| route_GetDictionaries :
    route c (GetDictionaries P c) "GET" "/entities/" None ""
| route_GetDictionary ID :
    route c (GetDictionary P c ID) "GET" ("/entities/" ++ ID) None ""
| route_DeleteDictionary ID :
    route c (DeleteDictionary P c ID) "DELETE" ("/entities/" ++ ID) None ""
| route_AddDictionaryEntries ID e :
    route c (AddDictionaryEntries c ID e) "POST" ("/entities/" ++ ID ++ "/")
      (Some contentTypeJSON) (json_Marshal_entries e).1
| route_AddDictionaryEntry ID e :
    route c (AddDictionaryEntry c ID e) "POST" ("/entities/" ++ ID ++ "/")
      (Some contentTypeJSON) (json_Marshal_entries [e]).1
| route_GetDictionaryEntries ID limit offset :
    route c (GetDictionaryEntries P c ID limit offset) "GET" ("/entities/" ++ ID ++ "/_all")
      None (limit_offset_payload limit offset)
| route_GetDictionaryEntry dictID entryID :
    route c (GetDictionaryEntry P c dictID entryID) "GET"
      ("/entities/" ++ dictID ++ "/" ++ entryID) None ""
| route_DeleteDictionaryEntry dictID entryID :
    route c (DeleteDictionaryEntry P c dictID entryID) "DELETE"
      ("/entities/" ++ dictID ++ "/" ++ entryID) None ""
| route_CreateClassifierFromJSON ID jsonStr :
    route c (CreateClassifierFromJSON P c ID jsonStr) "PUT" ("/categories/" ++ ID)
      (Some contentTypeJSON) jsonStr
| route_CreateClassifierFromCSV ID csvStr :
    route c (CreateClassifierFromCSV P c ID csvStr) "PUT" ("/categories/" ++ ID)
      (Some contentTypeCSV) csvStr
| route_DeleteClassifier ID :
    route c (DeleteClassifier P c ID) "DELETE" ("/categories/" ++ ID) None ""
| route_GetClassifierCategories ID limit offset :
    route c (GetClassifierCategories P c ID limit offset) "GET"
      ("/categories/" ++ ID ++ "/_all") None (limit_offset_payload limit offset)
| route_GetClassifierCategory clID catID :
    route c (GetClassifierCategory P c clID catID) "GET"
      ("/categories/" ++ clID ++ "/" ++ catID) None ""
| route_DeleteClassifierCategory clID catID :
    route c (DeleteClassifierCategory P c clID catID) "DELETE"
      ("/categories/" ++ clID ++ "/" ++ catID) None "".

End Facade.

(** * Properties *)

(** ** The parameter map *)

Section ParamsFacts.

Implicit Types (m : gmap string (list string)) (key value : string).

Lemma map_index_insert m key vs k :
  map_index (map_of (<[key := vs]> m)) k
  = if decide (key = k) then vs else map_index (map_of m) k.
Proof.
  unfold map_index. rewrite lookup_insert. by case_decide.
Qed.

Lemma Add_allocated m key value :
  Params.Add (map_of m) key value
  = Some (map_of (<[key := (map_index (map_of m) key ++ [value])%list]> m)).
Proof. reflexivity. Qed.

Lemma Add_nil_panics key value : Params.Add map_nil key value = None.
Proof. reflexivity. Qed.

Lemma values_for_cons key k v calls :
  values_for key ((k, v) :: calls)
  = if decide (k = key) then v :: values_for key calls else values_for key calls.
Proof.
  unfold values_for. rewrite filter_cons. simpl. by case_decide.
Qed.

Lemma add_all_allocated m calls :
  exists m', add_all (map_of m) calls = Some (map_of m')
    /\ forall k, map_index (map_of m') k = (map_index (map_of m) k ++ values_for k calls)%list.
Proof.
  revert m. induction calls as [|[key value] rest IH]; intros m.
  - exists m. split; [done|]. intros k. by rewrite app_nil_r.
  - cbn [add_all]. rewrite Add_allocated.
    destruct (IH (<[key := (map_index (map_of m) key ++ [value])%list]> m)) as (m' & Hrun & Hidx).
    exists m'. split; [done|]. intros k.
    rewrite Hidx, map_index_insert, values_for_cons.
    case_decide; [subst; by rewrite <- app_assoc | done].
Qed.

Lemma Get_head v key : Params.Get v key = hd "" (map_index v key).
Proof. unfold Params.Get, url.Get. by destruct (map_index v key). Qed.

End ParamsFacts.

(** ** The order of [sort.Strings] *)

Section StringOrder.

Lemma ascii_compare_trans_lt (a b c : ascii) :
  Ascii.compare a b = Lt -> Ascii.compare b c = Lt -> Ascii.compare a c = Lt.
Proof.
  unfold Ascii.compare. rewrite !N.compare_lt_iff. lia.
Qed.

Lemma string_compare_refl (s : string) : String.compare s s = Eq.
Proof.
  induction s as [|c s IH]; simpl; [done|].
  unfold Ascii.compare. by rewrite N.compare_refl.
Qed.

Lemma string_compare_eq (a b : string) : String.compare a b = Eq <-> a = b.
Proof.
  split; [apply String.compare_eq_iff | intros ->; apply string_compare_refl].
Qed.

Lemma string_compare_trans_lt (a b c : string) :
  String.compare a b = Lt -> String.compare b c = Lt -> String.compare a c = Lt.
Proof.
  revert b c. induction a as [|x a IH]; intros [|y b] [|z c]; simpl; try done.
  destruct (Ascii.compare x y) eqn:Hxy; try done.
  - apply Ascii.compare_eq_iff in Hxy as ->.
    destruct (Ascii.compare y z); try done. apply IH.
  - intros _. destruct (Ascii.compare y z) eqn:Hyz; try done.
    + apply Ascii.compare_eq_iff in Hyz as <-. by rewrite Hxy.
    + by rewrite (ascii_compare_trans_lt x y z).
Qed.

Lemma str_le_lt_eq (a b : string) : url.str_le a b <-> str_lt a b \/ a = b.
Proof.
  unfold url.str_le, str_lt, String.leb, String.ltb.
  destruct (String.compare a b) eqn:H.
  - apply string_compare_eq in H. naive_solver.
  - naive_solver.
  - split; [done|]. intros [ | -> ]; [done|]. by rewrite string_compare_refl in H.
Qed.

#[local] Instance str_le_trans : Transitive url.str_le.
Proof.
  intros a b c. rewrite !str_le_lt_eq. unfold str_lt, String.ltb.
  intros [H1| ->] [H2| ->]; auto.
  left. destruct (String.compare a b) eqn:Hab; try done.
  destruct (String.compare b c) eqn:Hbc; try done.
  by rewrite (string_compare_trans_lt a b c).
Qed.

#[local] Instance str_le_antisym : AntiSymm eq url.str_le.
Proof. intros a b. apply String.leb_antisym. Qed.

#[local] Instance str_le_total : Total url.str_le.
Proof. intros a b. apply String.leb_total. Qed.

Lemma sort_Strings_Permutation (keys : list string) : url.sort_Strings keys ≡ₚ keys.
Proof. apply merge_sort_Permutation. Qed.

Lemma sort_Strings_Sorted (keys : list string) :
  StronglySorted url.str_le (url.sort_Strings keys).
Proof. apply StronglySorted_merge_sort; apply _. Qed.

(** A slice without repetition has one sorted arrangement only. *)
Lemma sorted_arrangement_unique (l1 l2 : list string) :
  StronglySorted url.str_le l1 -> StronglySorted url.str_le l2 -> l1 ≡ₚ l2 -> l1 = l2.
Proof. apply StronglySorted_unique, _. Qed.

Lemma sort_Strings_order_irrelevant (ks1 ks2 : list string) :
  ks1 ≡ₚ ks2 -> url.sort_Strings ks1 = url.sort_Strings ks2.
Proof.
  intros H. apply sorted_arrangement_unique; try apply sort_Strings_Sorted.
  by rewrite !sort_Strings_Permutation.
Qed.

Lemma sorted_distinct_strict (l : list string) :
  NoDup l -> StronglySorted url.str_le l -> StronglySorted str_lt l.
Proof.
  induction l as [|x l IH]; intros Hnd Hs; [constructor|].
  apply NoDup_cons in Hnd as [Hx Hnd]. apply StronglySorted_cons in Hs as [Hall Hs].
  constructor; [by apply IH|].
  rewrite Forall_forall in *. intros y Hy.
  destruct (proj1 (str_le_lt_eq x y) (Hall y Hy)) as [ | -> ]; [done|].
  by destruct Hx.
Qed.

End StringOrder.
(** ** [Values.Encode] *)

Section EncodeFacts.

Lemma append_cons (x : ascii) (a b : string) : String x a ++ b = String x (a ++ b).
Proof. reflexivity. Qed.

Lemma append_assoc (a b c : string) : (a ++ b) ++ c = a ++ b ++ c.
Proof. induction a as [|x a IH]; [done|]. rewrite !append_cons. by f_equal. Qed.

Lemma append_empty_r (a : string) : a ++ "" = a.
Proof. induction a as [|x a IH]; [done|]. rewrite append_cons. by f_equal. Qed.

Lemma length_append (a b : string) :
  String.length (a ++ b) = (String.length a + String.length b)%nat.
Proof. induction a as [|x a IH]; [done|]. rewrite append_cons. simpl. by f_equal. Qed.

Lemma encode_pair_length (kv : string * string) : (0 < String.length (encode_pair kv))%nat.
Proof. unfold encode_pair. rewrite !length_append. cbn [String.length]. lia. Qed.

Lemma write_pair_encode_pair (kv : string * string) (buf : string) :
  url.write_pair (url.QueryEscape kv.1) buf kv.2
  = (if (0 <? String.length buf)%nat then buf ++ "&" else buf) ++ encode_pair kv.
Proof. reflexivity. Qed.

Lemma encode_pairs_cons (kv kv' : string * string) (rest : list (string * string)) :
  encode_pairs (kv :: kv' :: rest) = encode_pair kv ++ "&" ++ encode_pairs (kv' :: rest).
Proof. reflexivity. Qed.

(** The buffer after the pairs [pairs] were written behind [buf]. *)
Lemma write_pairs_spec (pairs : list (string * string)) (buf : string) :
  fold_left (fun b kv => url.write_pair (url.QueryEscape kv.1) b kv.2) pairs buf
  = match pairs with
    | [] => buf
    | _ => (if (0 <? String.length buf)%nat then buf ++ "&" else buf) ++ encode_pairs pairs
    end.
Proof.
  revert buf. induction pairs as [|kv rest IH]; intros buf; [done|].
  cbn [fold_left]. rewrite IH, write_pair_encode_pair.
  destruct rest as [|kv' rest]; [done|].
  set (pre := if (0 <? String.length buf)%nat then buf ++ "&" else buf).
  assert ((0 <? String.length (pre ++ encode_pair kv))%nat = true) as ->.
  { apply Nat.ltb_lt. rewrite length_append. pose proof (encode_pair_length kv). lia. }
  by rewrite encode_pairs_cons, !append_assoc.
Qed.

Lemma write_key_pairs (v : strings_map) (buf k : string) :
  url.write_key v buf k
  = fold_left (fun b kv => url.write_pair (url.QueryEscape kv.1) b kv.2)
      (map (pair k) (map_index v k)) buf.
Proof.
  unfold url.write_key. cbv zeta. revert buf.
  induction (map_index v k) as [|x vs IH]; intros buf; [done|]. apply IH.
Qed.

Lemma write_keys_pairs (v : strings_map) (keys : list string) (buf : string) :
  fold_left (url.write_key v) keys buf
  = fold_left (fun b kv => url.write_pair (url.QueryEscape kv.1) b kv.2)
      (pairs_in_order v keys) buf.
Proof.
  revert buf. induction keys as [|k keys IH]; intros buf; [done|].
  cbn [fold_left pairs_in_order flat_map]. rewrite fold_left_app, <- write_key_pairs. apply IH.
Qed.

Lemma pairs_in_order_nil (keys : list string) : pairs_in_order map_nil keys = [].
Proof. induction keys as [|k keys IH]; [done|]. apply IH. Qed.

(** [Encode] writes the pairs of the map, keys sorted. *)
Lemma Encode_ranging_pairs (keys : list string) (v : strings_map) :
  url.Encode_ranging keys v = encode_pairs (pairs_in_order v (url.sort_Strings keys)).
Proof.
  destruct v as [|m]; simpl.
  - by rewrite pairs_in_order_nil.
  - rewrite write_keys_pairs, write_pairs_spec.
    by destruct (pairs_in_order (map_of m) (url.sort_Strings keys)).
Qed.

Lemma keys_of_NoDup (v : strings_map) : NoDup (url.keys_of v).
Proof. destruct v as [|m]; [constructor | apply NoDup_fst_map_to_list]. Qed.

Lemma keys_of_index (v : strings_map) (k : string) :
  map_index v k <> [] -> k ∈ url.keys_of v.
Proof.
  destruct v as [|m]; simpl; [done|]. intros H.
  destruct (m !! k) as [vs|] eqn:Hk; [|done].
  apply list_elem_of_fmap. exists (k, vs). split; [done|]. by apply elem_of_map_to_list.
Qed.

(** Keys without values write nothing. *)
Lemma pairs_in_order_filter (v : strings_map) (keys : list string) :
  pairs_in_order v keys = pairs_in_order v (filter (fun k => map_index v k <> []) keys).
Proof.
  induction keys as [|k keys IH]; [done|].
  rewrite filter_cons. case_decide as Hk.
  - cbn [pairs_in_order flat_map]. by f_equal.
  - cbn [pairs_in_order flat_map]. rewrite Hk. apply IH.
Qed.

Lemma StronglySorted_filter_le (P : string -> Prop) `{forall x, Decision (P x)} (l : list string) :
  StronglySorted url.str_le l -> StronglySorted url.str_le (filter P l).
Proof.
  induction 1 as [|x l Hs IH Hall]; [constructor|].
  rewrite filter_cons. case_decide; [|done].
  constructor; [done|]. rewrite Forall_forall in Hall |- *.
  intros y Hy. apply list_elem_of_filter in Hy as [_ Hy]. by apply Hall.
Qed.

Lemma pairs_in_order_ext (v1 v2 : strings_map) (keys : list string) :
  (forall k, map_index v1 k = map_index v2 k) ->
  pairs_in_order v1 keys = pairs_in_order v2 keys.
Proof.
  intros H. unfold pairs_in_order. induction keys as [|k keys IH]; [done|].
  simpl. by rewrite H, IH.
Qed.

(** The sorted keys that hold values are the same for two maps with the same
    values under every key, in whatever order each was enumerated. *)
Lemma sorted_nonempty_keys (v1 v2 : strings_map) (ks1 ks2 : list string) :
  url.range_order v1 ks1 -> url.range_order v2 ks2 ->
  (forall k, map_index v1 k = map_index v2 k) ->
  filter (fun k => map_index v1 k <> []) (url.sort_Strings ks1)
  = filter (fun k => map_index v1 k <> []) (url.sort_Strings ks2).
Proof.
  unfold url.range_order. intros H1 H2 Hsame.
  apply sorted_arrangement_unique;
    try (apply StronglySorted_filter_le, sort_Strings_Sorted).
  apply NoDup_Permutation.
  - apply NoDup_filter. rewrite sort_Strings_Permutation, H1. apply keys_of_NoDup.
  - apply NoDup_filter. rewrite sort_Strings_Permutation, H2. apply keys_of_NoDup.
  - intros k. rewrite !list_elem_of_filter, !sort_Strings_Permutation, H1, H2.
    split; intros [Hk _]; (split; [done|]).
    + apply keys_of_index. by rewrite <- Hsame.
    + by apply keys_of_index.
Qed.

(** Two maps with the same values under every key encode alike, whatever
    the order in which each is enumerated. *)
Lemma Encode_ranging_agree (p q : strings_map) (ks1 ks2 : list string) :
  url.range_order p ks1 -> url.range_order q ks2 ->
  (forall k, map_index p k = map_index q k) ->
  url.Encode_ranging ks1 p = url.Encode_ranging ks2 q.
Proof.
  intros H1 H2 Hsame. rewrite !Encode_ranging_pairs.
  rewrite (pairs_in_order_filter p), (pairs_in_order_filter q).
  rewrite (pairs_in_order_ext q p) by done.
  f_equal. f_equal.
  rewrite (sorted_nonempty_keys p q ks1 ks2) by done.
  apply list_filter_iff. intros k. by rewrite Hsame.
Qed.

Lemma range_order_keys_of (v : strings_map) : url.range_order v (url.keys_of v).
Proof. by unfold url.range_order. Qed.

End EncodeFacts.

(** C9. [Encode] is deterministic.  Whatever order [range] enumerates the map
    in, the keys are written in strictly ascending byte-wise lexicographic
    order, each key once, and under each key its values in the order in which
    the map holds them; the payload is those pairs, escaped and joined by '&'.
    So two parameter maps that hold the same values under every key encode to
    the same string, whatever the order in which each was built or
    enumerated. *)
Theorem Encode_deterministic (p q : strings_map) (ks1 ks2 : list string) :
  url.range_order p ks1 ->
  url.range_order q ks2 ->
  (forall key, map_index p key = map_index q key) ->
  url.Encode_ranging ks1 p = encode_pairs (pairs_in_order p (url.sort_Strings ks1))
  /\ StronglySorted str_lt (url.sort_Strings ks1)
  /\ url.sort_Strings ks1 ≡ₚ url.keys_of p
  /\ url.Encode_ranging ks1 p = url.Encode_ranging ks2 q
  /\ Params.Encode p = (url.Encode_ranging ks1 p, None).
Proof.
  intros H1 H2 Hsame.
  split; [apply Encode_ranging_pairs|].
  split.
  { apply sorted_distinct_strict; [|apply sort_Strings_Sorted].
    unfold url.range_order in H1.
    rewrite sort_Strings_Permutation, H1. apply keys_of_NoDup. }
  split; [rewrite sort_Strings_Permutation; exact H1|].
  split; [by apply Encode_ranging_agree|].
  unfold Params.Encode, url.Encode. f_equal.
  apply Encode_ranging_agree; [apply range_order_keys_of | done | done].
Qed.

(** The test of [Encode] in [TestParams], and an enumeration in the other
    order. *)
Lemma Encode_deterministic_witness :
  let p := map_of {[ "text" := ["a b"]; "extractors" := ["entities"; "entailments"] ]} in
  url.Encode_ranging ["text"; "extractors"] p
  = encode_pairs (pairs_in_order p (url.sort_Strings ["text"; "extractors"]))
  /\ StronglySorted str_lt (url.sort_Strings ["text"; "extractors"])
  /\ url.sort_Strings ["text"; "extractors"] ≡ₚ url.keys_of p
  /\ url.Encode_ranging ["text"; "extractors"] p = url.Encode_ranging ["extractors"; "text"] p
  /\ Params.Encode p = (url.Encode_ranging ["text"; "extractors"] p, None).
Proof.
  intros p.
  apply (Encode_deterministic p p ["text"; "extractors"] ["extractors"; "text"]).
  - unfold url.range_order. vm_compute. apply perm_swap.
  - unfold url.range_order. vm_compute. reflexivity.
  - reflexivity.
Defined.



Section LimitOffset.

Lemma limit_offset_range_order (a b : string) :
  url.range_order (map_of {[ "limit" := [a]; "offset" := [b] ]}) ["limit"; "offset"].
Proof.
  unfold url.range_order, url.keys_of.
  rewrite map_to_list_insert by done. by rewrite map_to_list_singleton.
Qed.

(** The payload of the two-key map of the listing operations. *)
Lemma Encode_limit_offset (a b : string) :
  url.Encode (map_of {[ "limit" := [a]; "offset" := [b] ]})
  = "limit=" ++ url.QueryEscape a ++ "&offset=" ++ url.QueryEscape b.
Proof.
  unfold url.Encode.
  rewrite (Encode_ranging_agree _ _ _ ["limit"; "offset"]
             (range_order_keys_of _) (limit_offset_range_order a b) (fun _ => eq_refl)).
  rewrite Encode_ranging_pairs.
  change (url.sort_Strings ["limit"; "offset"]) with ["limit"; "offset"].
  unfold pairs_in_order. cbn [flat_map]. rewrite !map_index_insert.
  rewrite decide_True, decide_False by done.
  unfold map_index. rewrite lookup_singleton_eq.
  reflexivity.
Qed.

End LimitOffset.

(** ** Integers converted to strings *)

Section IntstringFacts.

Lemma byte_val_byte_of (z : Z) : byte_val (byte_of z) = z mod 256.
Proof.
  unfold byte_val, byte_of.
  assert (0 <= z mod 256 < 256) as Hz by (apply Z.mod_pos_bound; lia).
  rewrite N_ascii_embedding by lia. lia.
Qed.

Lemma byte_val_range (c : ascii) : 0 <= byte_val c < 256.
Proof.
  unfold byte_val. pose proof (N_ascii_bounded c). lia.
Qed.

(** Bits set below [2 ^ n] and bits set from [2 ^ n] on do not meet. *)
Lemma land_high_low (a b n : Z) :
  0 <= n -> 0 <= b < 2 ^ n -> Z.land (Z.shiftl a n) b = 0.
Proof.
  intros Hn Hb. apply Z.bits_inj'. intros i Hi.
  rewrite Z.land_spec, Z.bits_0.
  destruct (Z.lt_ge_cases i n) as [Hlt|Hge].
  - by rewrite Z.shiftl_spec_low.
  - assert (Z.testbit b i = false) as ->; [|apply andb_false_r].
    destruct (Z.eq_dec b 0) as [->|Hb0]; [apply Z.bits_0|].
    apply Z.bits_above_log2; [lia|].
    apply Z.log2_lt_pow2; [lia|].
    assert (2 ^ n <= 2 ^ i) by (apply Z.pow_le_mono_r; lia). lia.
Qed.

Lemma lor_high_low (a b n : Z) :
  0 <= n -> 0 <= b < 2 ^ n -> Z.lor (a * 2 ^ n) b = a * 2 ^ n + b.
Proof.
  intros Hn Hb. rewrite <- Z.shiftl_mul_pow2 by done.
  pose proof (land_high_low a b n Hn Hb) as Hland.
  by rewrite <- Z.lxor_lor, <- Z.add_nocarry_lxor.
Qed.

Lemma land_maskx (x : Z) : Z.land x utf8.maskx = x mod 64.
Proof. change utf8.maskx with (Z.ones 6). by rewrite Z.land_ones. Qed.

Lemma lor_tx (x : Z) : 0 <= x < 64 -> Z.lor utf8.tx x = 128 + x.
Proof. intros. change utf8.tx with (2 * 2 ^ 6). by rewrite lor_high_low. Qed.

Lemma lor_t2 (x : Z) : 0 <= x < 64 -> Z.lor utf8.t2 x = 192 + x.
Proof. intros. change utf8.t2 with (3 * 2 ^ 6). by rewrite lor_high_low. Qed.

Lemma lor_t3 (x : Z) : 0 <= x < 32 -> Z.lor utf8.t3 x = 224 + x.
Proof. intros. change utf8.t3 with (7 * 2 ^ 5). by rewrite lor_high_low. Qed.

Lemma lor_t4 (x : Z) : 0 <= x < 16 -> Z.lor utf8.t4 x = 240 + x.
Proof. intros. change utf8.t4 with (15 * 2 ^ 4). by rewrite lor_high_low. Qed.

Lemma continuation_byte (x : Z) :
  0 <= x -> Z.lor utf8.tx (Z.land (utf8.byte x) utf8.maskx) = 128 + x mod 64.
Proof.
  intros Hx. rewrite land_maskx. unfold utf8.byte.
  rewrite lor_tx by (Z.div_mod_to_equations; lia).
  Z.div_mod_to_equations; lia.
Qed.

(** The four layouts of [encoderune], in arithmetic. *)
Lemma intstring_1 (v : Z) : 0 <= v <= 0x7F -> utf8.intstring v = utf8.bytes [v].
Proof.
  intros Hv. unfold utf8.intstring, utf8.encoderune.
  assert (((- 2 ^ 31 <=? v) && (v <? 2 ^ 31)) = true) as -> by lia.
  rewrite (Z.mod_small v (2 ^ 32)) by lia.
  assert ((v <=? utf8.rune1Max) = true) as -> by (unfold utf8.rune1Max; lia).
  unfold utf8.byte. by rewrite Z.mod_small by lia.
Qed.

Lemma intstring_2 (v : Z) :
  0x80 <= v <= 0x7FF -> utf8.intstring v = utf8.bytes [192 + v / 64; 128 + v mod 64].
Proof.
  intros Hv. unfold utf8.intstring, utf8.encoderune.
  assert (((- 2 ^ 31 <=? v) && (v <? 2 ^ 31)) = true) as -> by lia.
  rewrite (Z.mod_small v (2 ^ 32)) by lia.
  assert ((v <=? utf8.rune1Max) = false) as -> by (unfold utf8.rune1Max; lia).
  assert ((v <=? utf8.rune2Max) = true) as -> by (unfold utf8.rune2Max; lia).
  rewrite continuation_byte by lia.
  rewrite Z.shiftr_div_pow2 by lia. change (2 ^ 6) with 64.
  unfold utf8.byte. rewrite (Z.mod_small (v / 64)) by (Z.div_mod_to_equations; lia).
  by rewrite lor_t2 by (Z.div_mod_to_equations; lia).
Qed.

Lemma encode3_layout (v : Z) :
  0 <= v <= 0xFFFF ->
  utf8.encode3 v = utf8.bytes [224 + v / 4096; 128 + (v / 64) mod 64; 128 + v mod 64].
Proof.
  intros Hv. unfold utf8.encode3.
  rewrite !Z.shiftr_div_pow2 by lia. change (2 ^ 6) with 64. change (2 ^ 12) with 4096.
  rewrite !continuation_byte by (Z.div_mod_to_equations; lia).
  unfold utf8.byte. rewrite (Z.mod_small (v / 4096)) by (Z.div_mod_to_equations; lia).
  by rewrite lor_t3 by (Z.div_mod_to_equations; lia).
Qed.

Lemma intstring_3 (v : Z) :
  0x800 <= v <= 0xFFFF -> ~ (0xD800 <= v <= 0xDFFF) ->
  utf8.intstring v
  = utf8.bytes [224 + v / 4096; 128 + (v / 64) mod 64; 128 + v mod 64].
Proof.
  intros Hv Hs. unfold utf8.intstring, utf8.encoderune.
  assert (((- 2 ^ 31 <=? v) && (v <? 2 ^ 31)) = true) as -> by lia.
  rewrite (Z.mod_small v (2 ^ 32)) by lia.
  assert ((v <=? utf8.rune1Max) = false) as -> by (unfold utf8.rune1Max; lia).
  assert ((v <=? utf8.rune2Max) = false) as -> by (unfold utf8.rune2Max; lia).
  assert (((utf8.MaxRune <? v) || (utf8.surrogateMin <=? v) && (v <=? utf8.surrogateMax))
          = false) as ->
    by (unfold utf8.MaxRune, utf8.surrogateMin, utf8.surrogateMax; lia).
  assert ((v <=? utf8.rune3Max) = true) as -> by (unfold utf8.rune3Max; lia).
  apply encode3_layout. lia.
Qed.

Lemma intstring_4 (v : Z) :
  0x10000 <= v <= 0x10FFFF ->
  utf8.intstring v
  = utf8.bytes [240 + v / 262144; 128 + (v / 4096) mod 64; 128 + (v / 64) mod 64;
                128 + v mod 64].
Proof.
  intros Hv. unfold utf8.intstring, utf8.encoderune.
  assert (((- 2 ^ 31 <=? v) && (v <? 2 ^ 31)) = true) as -> by lia.
  rewrite (Z.mod_small v (2 ^ 32)) by lia.
  assert ((v <=? utf8.rune1Max) = false) as -> by (unfold utf8.rune1Max; lia).
  assert ((v <=? utf8.rune2Max) = false) as -> by (unfold utf8.rune2Max; lia).
  assert (((utf8.MaxRune <? v) || (utf8.surrogateMin <=? v) && (v <=? utf8.surrogateMax))
          = false) as ->
    by (unfold utf8.MaxRune, utf8.surrogateMin, utf8.surrogateMax; lia).
  assert ((v <=? utf8.rune3Max) = false) as -> by (unfold utf8.rune3Max; lia).
  rewrite !Z.shiftr_div_pow2 by lia.
  change (2 ^ 6) with 64. change (2 ^ 12) with 4096. change (2 ^ 18) with 262144.
  rewrite !continuation_byte by (Z.div_mod_to_equations; lia).
  unfold utf8.byte. rewrite (Z.mod_small (v / 262144)) by (Z.div_mod_to_equations; lia).
  by rewrite lor_t4 by (Z.div_mod_to_equations; lia).
Qed.

Lemma intstring_invalid (v : Z) :
  utf8.valid_rune v = false -> utf8.intstring v = utf8.bytes [0xEF; 0xBF; 0xBD].
Proof.
  unfold utf8.valid_rune, utf8.MaxRune, utf8.surrogateMin, utf8.surrogateMax.
  intros Hv. unfold utf8.intstring.
  assert (utf8.encoderune utf8.RuneError = utf8.bytes [0xEF; 0xBF; 0xBD]) as Herr
    by by vm_compute.
  destruct ((- 2 ^ 31 <=? v) && (v <? 2 ^ 31)) eqn:Hfit; [|done].
  unfold utf8.encoderune.
  assert (0 <= v mod 2 ^ 32 /\ (v mod 2 ^ 32 = v \/ v mod 2 ^ 32 = v + 2 ^ 32)) as Hmod
    by (Z.div_mod_to_equations; lia).
  assert ((v mod 2 ^ 32 <=? utf8.rune1Max) = false) as ->
    by (unfold utf8.rune1Max; lia).
  assert ((v mod 2 ^ 32 <=? utf8.rune2Max) = false) as ->
    by (unfold utf8.rune2Max; lia).
  assert (((utf8.MaxRune <? v mod 2 ^ 32)
           || (utf8.surrogateMin <=? v mod 2 ^ 32) && (v mod 2 ^ 32 <=? utf8.surrogateMax))
          = true) as ->
    by (unfold utf8.MaxRune, utf8.surrogateMin, utf8.surrogateMax; lia).
  by vm_compute.
Qed.


Lemma join2 (a b : Z) : 0 <= b < 64 -> Z.lor (Z.shiftl a 6) b = a * 64 + b.
Proof.
  intros. rewrite Z.shiftl_mul_pow2 by lia. by rewrite lor_high_low by lia.
Qed.

Lemma join3 (a b c : Z) :
  0 <= b < 64 -> 0 <= c < 64 ->
  Z.lor (Z.lor (Z.shiftl a 12) (Z.shiftl b 6)) c = a * 4096 + b * 64 + c.
Proof.
  intros. rewrite !Z.shiftl_mul_pow2 by lia.
  rewrite (lor_high_low a (b * 2 ^ 6) 12) by lia.
  replace (a * 2 ^ 12 + b * 2 ^ 6) with ((a * 64 + b) * 2 ^ 6) by lia.
  rewrite lor_high_low by lia. lia.
Qed.

Lemma join4 (a b c d : Z) :
  0 <= b < 64 -> 0 <= c < 64 -> 0 <= d < 64 ->
  Z.lor (Z.lor (Z.lor (Z.shiftl a 18) (Z.shiftl b 12)) (Z.shiftl c 6)) d
  = a * 262144 + b * 4096 + c * 64 + d.
Proof.
  intros. rewrite !Z.shiftl_mul_pow2 by lia.
  rewrite (lor_high_low a (b * 2 ^ 12) 18) by lia.
  replace (a * 2 ^ 18 + b * 2 ^ 12) with ((a * 64 + b) * 2 ^ 12) by lia.
  rewrite (lor_high_low (a * 64 + b) (c * 2 ^ 6) 12) by lia.
  replace ((a * 64 + b) * 2 ^ 12 + c * 2 ^ 6) with ((a * 4096 + b * 64 + c) * 2 ^ 6) by lia.
  rewrite lor_high_low by lia. lia.
Qed.

Lemma land_low_bits (x k : Z) : 0 <= k -> Z.land x (Z.ones k) = x mod 2 ^ k.
Proof. apply Z.land_ones. Qed.

Ltac arith := Z.div_mod_to_equations; lia.

(** Settle the comparisons of a decoder run on bytes known in arithmetic. *)
Ltac settle :=
  repeat match goal with
    | |- context [if ?a =? ?b then _ else _] =>
        destruct (Z.eqb_spec a b); try (exfalso; arith)
    | |- context [?a <? ?b] =>
        first [ replace (a <? b) with true by (symmetry; apply Z.ltb_lt; arith)
              | replace (a <? b) with false by (symmetry; apply Z.ltb_ge; arith) ]
    | |- context [?a <=? ?b] =>
        first [ replace (a <=? b) with true by (symmetry; apply Z.leb_le; arith)
              | replace (a <=? b) with false by (symmetry; apply Z.leb_gt; arith) ]
    | |- context [?a =? ?b] =>
        first [ replace (a =? b) with true by (symmetry; apply Z.eqb_eq; arith)
              | replace (a =? b) with false by (symmetry; apply Z.eqb_neq; arith)
              | destruct (Z.eqb_spec a b); try (exfalso; arith) ]
    end.

Lemma valid_rune_cases (v : Z) :
  utf8.valid_rune v = true ->
  0 <= v <= 0x7F \/ 0x80 <= v <= 0x7FF
  \/ (0x800 <= v <= 0xFFFF /\ ~ (0xD800 <= v <= 0xDFFF)) \/ 0x10000 <= v <= 0x10FFFF.
Proof.
  unfold utf8.valid_rune, utf8.MaxRune, utf8.surrogateMin, utf8.surrogateMax. lia.
Qed.

(** The string of a valid rune decodes to that rune and nothing more. *)
Lemma DecodeRune_intstring (v : Z) :
  utf8.valid_rune v = true -> utf8.DecodeRune (utf8.intstring v) = Some (v, "").
Proof.
  intros Hv. destruct (valid_rune_cases v Hv) as [H1|[H2|[[H3 Hs]|H4]]].
  - rewrite intstring_1 by done. unfold utf8.bytes, utf8.DecodeRune. cbn [map string_of_list_ascii].
    rewrite byte_val_byte_of, Z.mod_small by lia. by settle.
  - rewrite intstring_2 by done. unfold utf8.bytes, utf8.DecodeRune, utf8.continuation.
    cbn [map string_of_list_ascii].
    rewrite !byte_val_byte_of, !(Z.mod_small _ 256) by arith.
    settle. cbn [andb]. rewrite land_maskx. change 31 with (Z.ones 5).
    rewrite land_low_bits, join2 by arith. f_equal. f_equal. arith.
  - rewrite intstring_3 by done. unfold utf8.bytes, utf8.DecodeRune, utf8.continuation.
    cbn [map string_of_list_ascii].
    rewrite !byte_val_byte_of, !(Z.mod_small _ 256) by arith.
    settle; cbn [andb]; rewrite !land_maskx; change 15 with (Z.ones 4);
      rewrite land_low_bits, join3 by arith; f_equal; f_equal; arith.
  - rewrite intstring_4 by done. unfold utf8.bytes, utf8.DecodeRune, utf8.continuation.
    cbn [map string_of_list_ascii].
    rewrite !byte_val_byte_of, !(Z.mod_small _ 256) by arith.
    settle; cbn [andb]; rewrite !land_maskx; change 7 with (Z.ones 3);
      rewrite land_low_bits, join4 by arith; f_equal; f_equal; arith.
Qed.


(** A decimal numeral starts with a minus sign or a digit. *)
Lemma string_of_uint_head (d : Decimal.uint) :
  exists c s, NilZero.string_of_uint d = String c s /\ is_digit c = true.
Proof. destruct d; simpl; eauto. Qed.

Lemma Itoa_head (v : Z) :
  exists c s, Itoa v = String c s /\ (c = "-"%char \/ is_digit c = true).
Proof.
  unfold Itoa. destruct (Z.to_int v) as [d|d]; simpl.
  - destruct (string_of_uint_head d) as (c & s & -> & Hc). eauto.
  - eauto.
Qed.

Lemma is_digit_range (c : ascii) : is_digit c = true -> 48 <= byte_val c <= 57.
Proof.
  unfold is_digit, in_range. change (byte_val "0") with 48. change (byte_val "9") with 57. lia.
Qed.

(** Below 128 the conversion is one byte, the integer itself. *)
Lemma intstring_differs_below_128 :
  forallb (fun v => negb (String.eqb (utf8.intstring v) (Itoa v))) (seqZ 0 128) = true.
Proof. by vm_compute. Qed.

(** From 128 on, and for every integer that is no valid rune, the first byte
    is 0xC2 or more. *)
Lemma intstring_head_high (v : Z) :
  ~ (0 <= v <= 0x7F) ->
  exists b s, utf8.intstring v = String (byte_of b) s /\ 192 <= b < 256.
Proof.
  intros Hv. destruct (utf8.valid_rune v) eqn:Hvalid.
  - destruct (valid_rune_cases v Hvalid) as [H1|[H2|[[H3 Hs]|H4]]]; [done|..].
    + rewrite intstring_2 by done. eexists _, _. split; [reflexivity|arith].
    + rewrite intstring_3 by done. eexists _, _. split; [reflexivity|arith].
    + rewrite intstring_4 by done. eexists _, _. split; [reflexivity|arith].
  - rewrite intstring_invalid by done. eexists _, _. split; [reflexivity|lia].
Qed.

(** The conversion never yields the decimal numeral of the integer. *)
Lemma intstring_not_Itoa (v : Z) : utf8.intstring v <> Itoa v.
Proof.
  destruct (decide (0 <= v <= 0x7F)) as [Hlow|Hhigh].
  - pose proof intstring_differs_below_128 as Hall.
    rewrite forallb_forall in Hall.
    specialize (Hall v). rewrite negb_true_iff, String.eqb_neq in Hall.
    apply Hall. apply list_elem_of_In, elem_of_seqZ. lia.
  - destruct (intstring_head_high v Hhigh) as (b & s & -> & Hb).
    destruct (Itoa_head v) as (c & s' & -> & Hc).
    intros [= <- _].
    pose proof (byte_val_byte_of b) as Hval. rewrite Z.mod_small in Hval by lia.
    destruct Hc as [Hc|Hc].
    + rewrite Hc in Hval. change (byte_val "-") with 45 in Hval. lia.
    + apply is_digit_range in Hc. lia.
Qed.

End IntstringFacts.

(** ** The dispatcher *)

Section DispatcherFacts.

Context {float32 Payload : Type} (P : Platform float32 Payload).

Implicit Types (w : World float32 Payload) (c : Client).

Lemma events_of_app w envs res t :
  events_of w (mkWorld envs res (trace w ++ t)) = t.
Proof. unfold events_of. simpl. by rewrite drop_app_length. Qed.

Lemma events_of_same w : events_of w w = [].
Proof. unfold events_of. apply drop_all. Qed.

Lemma events_of_same_trace w w' : trace w' = trace w -> events_of w w' = [].
Proof. unfold events_of. intros ->. apply drop_all. Qed.

Lemma http_NewRequest_inv method u bodyStr req0 :
  http_NewRequest P method u bodyStr = inl req0 ->
  http.URL req0 = u /\ http.RequestBody_ req0 = bodyStr /\ http.Header req0 = map_of ∅
  /\ http.Method req0 = (if String.eqb method "" then http.MethodGet else method).
Proof.
  unfold http_NewRequest. case_match; [done|]. by intros [= <-].
Qed.

Lemma Header_Add_allocated (h : strings_map) key value :
  h <> map_nil -> is_Some (http.Header_Add h key value).
Proof. destruct h; [done|]. by eexists. Qed.

Lemma ReadAll_inl b data : http.ReadAll b = inl data -> b = http.reader_of data.
Proof. destruct b; simpl; congruence. Qed.

Lemma ReadAll_inr b err : http.ReadAll b = inr err -> b = http.faultyReader err.
Proof. destruct b; simpl; congruence. Qed.

Lemma status_not_OK code : negb (code =? http.StatusOK) = true -> code <> http.StatusOK.
Proof. intros H ->. by rewrite Z.eqb_refl in H. Qed.

Lemma status_OK code : negb (code =? http.StatusOK) = false -> code = http.StatusOK.
Proof. intros H. apply Z.eqb_eq. by destruct (code =? http.StatusOK). Qed.

Lemma fresh_envelope w : envelopes w !! fresh (dom (envelopes w)) = None.
Proof. apply not_elem_of_dom, is_fresh. Qed.

Lemma events_of_app2 w envs res e1 e2 :
  events_of w (mkWorld envs res ((trace w ++ [e1]) ++ [e2])) = [e1; e2].
Proof. rewrite <- app_assoc. apply events_of_app. Qed.

Lemma set_back_reference_type (l : loc) (t : Result Payload) :
  result_type (set_back_reference l t) = result_type t.
Proof. unfold set_back_reference. destruct (result_type t) eqn:E; simpl; congruence. Qed.

Ltac solve_attached :=
  split;
  [ apply fresh_envelope
  | eexists; split; [simpl; apply lookup_insert_eq | by repeat split]
  | simpl; eexists; split;
    [apply lookup_insert_eq | split; [by rewrite ?set_back_reference_type | done]] ].

Ltac solve_run_side :=
  first
    [ eassumption
    | by apply ReadAll_inl
    | by apply ReadAll_inr
    | by apply status_not_OK
    | by apply status_OK
    | apply events_of_app
    | apply events_of_app2
    | solve_attached
    | by (eexists; split; [simpl; apply lookup_insert_eq | done])
    | by (econstructor; [eassumption | simpl; eauto | eassumption | simpl; eauto])
    | done ].

Lemma doRequest_run {B} `{RequestBody B} c (path method : string) (headers : strings_map)
    (body : option B) (response : loc) w res w' :
  doRequest P c path method headers body response w = (res, w') ->
  run P c path method headers body response w res w'.
Proof.
  unfold doRequest.
  change ((if UseEncryption c then SecureEndpoint c else Endpoint c) ++ path)
    with (endpoint_path c path).
  unfold ParseBody, client_Do, bind, try, ret, fail, panic, log, new_HTTPResponse,
    setHTTPResponse, load_envelope.
  intros Hrun.
  repeat (rewrite ?lookup_insert_eq in *; case_match; simplify_eq/=).
  all: try (match goal with
            | Hn : http_NewRequest _ _ _ _ = inl _, Ha : http.Header_Add _ _ _ = None |- _ =>
                apply http_NewRequest_inv in Hn as (_ & _ & Hn & _); rewrite ?Hn in Ha; done
            end).
  all: try (match goal with
            | Hl : <[_ := _]> _ !! _ = None |- _ => by rewrite lookup_insert_eq in Hl
            end).
  all: try (match goal with
            | Hn : negb (view_Ok ?j) = _ |- _ => destruct (view_Ok j) eqn:?; simplify_eq/=
            end).
  all: match goal with
       | |- run _ _ _ _ _ _ _ _ (Fail (ErrURIParsing _ _)) _ =>
           by apply run_construction_failed, failed_uri
       | |- run _ _ _ _ _ _ _ _ (Fail (ErrBodyEncoding _)) _ =>
           by eapply run_construction_failed, failed_encoding
       | |- run _ _ _ _ _ _ _ _ (Fail (ErrRequestCreation _)) _ =>
           by eapply run_construction_failed, failed_creation
       | |- run _ _ _ _ _ _ _ _ (Fail (ErrRequestExecution _)) _ =>
           eapply run_execution_failed; solve_run_side
       | |- run _ _ _ _ _ _ _ _ (Fail (ErrBodyRead _)) _ =>
           eapply run_read_failed; solve_run_side
       | |- run _ _ _ _ _ _ _ _ (Panic _) _ =>
           (eapply run_no_result; [..|first [apply events_of_app | apply events_of_app2]]); solve_run_side
       | |- run _ _ _ _ _ _ _ _ (Fail (ErrStatusCode _)) _ =>
           (eapply run_status; [..|first [apply events_of_app | apply events_of_app2]]); solve_run_side
       | |- run _ _ _ _ _ _ _ _ (Fail (ErrBodyParsing _)) _ =>
           (eapply run_parse_failed; [..|first [apply events_of_app | apply events_of_app2]]); solve_run_side
       | |- run _ _ _ _ _ _ _ _ (Fail (ErrOkField _)) _ =>
           (eapply run_not_ok; [..|apply events_of_app2|]); solve_run_side
       | |- run _ _ _ _ _ _ _ _ (Return _) _ =>
           (eapply run_ok; [..|apply events_of_app2|]); solve_run_side
       end.
Qed.

Lemma prepared_inv {B} `{RequestBody B} c (path method : string) (headers : strings_map)
    (body : option B) req :
  prepared P c path method headers body req ->
  exists u bodyStr,
    url_ParseRequestURI P (endpoint_path c path) = inl u
    /\ encodes body bodyStr
    /\ http.URL req = u
    /\ http.RequestBody_ req = bodyStr
    /\ http.Header_Add (match headers with map_nil => map_of ∅ | _ => headers end)
         apiKeyHeader (apiKey c) = Some (http.Header req).
Proof.
  intros [u bodyStr req0 h Hu Hbody Hreq Hadd].
  apply http_NewRequest_inv in Hreq as (Hurl & Hb & Hh & _).
  exists u, bodyStr. simpl. by rewrite <- Hh.
Qed.

(** Reading a run off its exit: the events of the call, one by one. *)
Ltac events :=
  repeat match goal with
    | H : context [events_of ?w ?w] |- _ => rewrite events_of_same in H
    | H : context [events_of _ (mkWorld _ _ (trace _ ++ _))] |- _ => rewrite events_of_app in H
    | Hev : events_of ?w ?w' = _, H : context [events_of ?w ?w'] |- _ =>
        rewrite Hev in H
    | H : _ ∈ [] |- _ => by apply elem_of_nil in H
    | H : _ ∈ _ :: _ |- _ => apply elem_of_cons in H as [H|H]; simplify_eq
    end.

Ltac inv_run Hrun :=
  apply doRequest_run in Hrun; inversion Hrun; subst; clear Hrun; events.

(** C1. [doRequest] returns an envelope only after the transport answered
    with status 200 and the decoder, run without error on the body, left the
    envelope's [Ok] true.  When the transport answers 200 and the decoder runs
    without error but leaves [Ok] false, [doRequest] returns the error
    "unexpected 'ok' field value: false" and no envelope. *)
Theorem doRequest_returns_envelope_only_if_200_and_ok {B} `{RequestBody B} c
    (path method : string) (headers : strings_map) (body : option B) (response : loc)
    w res w' :
  doRequest P c path method headers body response w = (res, w') ->
  (forall l, res = Return l ->
     exists req resp r,
       EvDo req (inl resp) ∈ events_of w w'
       /\ http.StatusCode resp = http.StatusOK
       /\ EvUnmarshal l None ∈ events_of w w'
       /\ envelopes w' !! l = Some r
       /\ Status r = http.StatusOK
       /\ Ok r = true)
  /\ (forall req resp l r,
        EvDo req (inl resp) ∈ events_of w w' ->
        http.StatusCode resp = http.StatusOK ->
        EvUnmarshal l None ∈ events_of w w' ->
        envelopes w' !! l = Some r ->
        Ok r = false ->
        res = Fail (ErrOkField false)).
Proof.
  intros Hrun. split.
  - intros l0 ->. apply doRequest_run in Hrun. inversion Hrun; subst.
    match goal with
    | Ha : attached _ _ _ _ _ _ _, Hok : envelope_Ok _ _ _, Hev : events_of _ _ = _ |- _ =>
        destruct Ha as [_ (r & Hr & Hstatus & _) _]; destruct Hok as (r' & Hr' & Hok);
        rewrite Hev
    end.
    simplify_eq.
    match goal with
    | Ht : httpTransport c ?req = inl ?resp |- _ => exists req, resp, r
    end.
    repeat split; [set_solver | done | set_solver | done | congruence | done].
  - intros req resp l0 r Hdo Hstatus Hun Hr Hok.
    inv_run Hrun; try done.
    match goal with
    | Hok' : envelope_Ok _ _ _ |- _ => destruct Hok' as (r' & Hr' & Hok')
    end.
    congruence.
Qed.




(** C6. When the body's [Encode] returns an error, [doRequest] returns an error
    raised while the request is built, leaves the heap as it was and adds no
    event: the transport is not invoked.  With a well-formed URL that error is
    the encoding failure, holding the error of [Encode]. *)
Theorem doRequest_encoding_failure {B} `{RequestBody B} c (path method : string)
    (headers : strings_map) (b : B) (response : loc) w s err :
  Encode b = (s, Some err) ->
  exists e w',
    doRequest P c path method headers (Some b) response w = (Fail e, w')
    /\ w' = w
    /\ events_of w w' = []
    /\ request_construction_failure e = true
    /\ (forall u, url_ParseRequestURI P
                    ((if UseEncryption c then SecureEndpoint c else Endpoint c) ++ path)
                  = inl u ->
                  e = ErrBodyEncoding err).
Proof.
  intros Hb. unfold doRequest, bind, try, ret, fail.
  destruct (url_ParseRequestURI P _) as [u|uerr] eqn:Hu; rewrite ?Hb;
    eexists _, w; (split; [reflexivity|]); (split; [done|]);
    (split; [apply events_of_same|]); (split; [done|]);
    by intros ? [= <-].
Qed.

(** ** The façade *)

Lemma is_empty_true (s : string) : is_empty s = true <-> s = "".
Proof. apply String.eqb_eq. Qed.

Lemma is_empty_false (s : string) : is_empty s = false <-> s <> "".
Proof. apply String.eqb_neq. Qed.

(** C4. When "text" and "url" are both empty or both set, or "extractors" is
    empty, [Analyze] returns one of its two validation errors; it has
    allocated the result and done nothing else: no event, no envelope. *)
Theorem Analyze_validates_before_dispatch c (params : strings_map) w :
  (Params.Get params "text" = "" /\ Params.Get params "url" = "")
  \/ (Params.Get params "text" <> "" /\ Params.Get params "url" <> "")
  \/ Params.Get params "extractors" = "" ->
  exists e w',
    Analyze P c params w = (Fail e, w')
    /\ validation_error e = true
    /\ events_of w w' = []
    /\ trace w' = trace w
    /\ envelopes w' = envelopes w.
Proof.
  intros Hcond. unfold Analyze, bind, new_result, fail.
  set (w1 := mkWorld _ _ _).
  assert (events_of w w1 = []) as Hev by by apply events_of_same_trace.
  destruct (is_empty (Params.Get params "text")) eqn:Ht;
    destruct (is_empty (Params.Get params "url")) eqn:Hu;
    destruct (is_empty (Params.Get params "extractors")) eqn:He; simpl;
    try (by eexists _, w1).
  all: first [apply is_empty_true in Ht | apply is_empty_false in Ht];
    first [apply is_empty_true in Hu | apply is_empty_false in Hu];
    first [apply is_empty_true in He | apply is_empty_false in He];
    destruct Hcond as [[Ha Hb]|[[Ha Hb]|Ha]]; congruence.
Qed.

Lemma Analyze_conflict c (params : strings_map) w :
  Params.Get params "text" <> "" -> Params.Get params "url" <> "" ->
  exists w', Analyze P c params w = (Fail ErrURLOrText, w') /\ events_of w w' = [].
Proof.
  intros Ht Hu. unfold Analyze, bind, new_result, fail.
  apply is_empty_false in Ht, Hu. rewrite Ht, Hu. simpl.
  eexists. split; [done|]. by apply events_of_same_trace.
Qed.

Lemma Set_allocated (m : gmap string (list string)) key value :
  Params.Set_ (map_of m) key value = Some (map_of (<[key := [value]]> m)).
Proof. reflexivity. Qed.

Lemma Get_not_empty_allocated (p : strings_map) key :
  Params.Get p key <> "" -> exists m, p = map_of m.
Proof. destruct p as [|m]; [done|]. by exists m. Qed.

Lemma Get_Set_same (m : gmap string (list string)) key value :
  Params.Get (map_of (<[key := [value]]> m)) key = value.
Proof. by rewrite Get_head, map_index_insert, decide_True. Qed.

Lemma Get_Set_other (m : gmap string (list string)) key key' value :
  key <> key' ->
  Params.Get (map_of (<[key := [value]]> m)) key' = Params.Get (map_of m) key'.
Proof. intros. by rewrite !Get_head, map_index_insert, decide_False. Qed.

(** C10, amended.  On a map whose "url" is set, [AnalyzeText] with a text that
    is not empty replaces the values of "text" in the caller's map by that
    text, leaves the other keys alone and returns the validation error
    "either 'url' or 'text' should be specified, not both" without an event;
    so does [AnalyzeURL] with a URL that is not empty on a map whose "text"
    is set. *)
Theorem AnalyzeText_AnalyzeURL_on_conflicting_params c w :
  (forall (text : string) (params : strings_map),
      text <> "" ->
      Params.Get params "url" <> "" ->
      exists params' w',
        AnalyzeText P c text params w = (params', (Fail ErrURLOrText, w'))
        /\ map_index params' "text" = [text]
        /\ (forall key, key <> "text" -> map_index params' key = map_index params key)
        /\ events_of w w' = [])
  /\ (forall (urlStr : string) (params : strings_map),
        urlStr <> "" ->
        Params.Get params "text" <> "" ->
        exists params' w',
          AnalyzeURL P c urlStr params w = (params', (Fail ErrURLOrText, w'))
          /\ map_index params' "url" = [urlStr]
          /\ (forall key, key <> "url" -> map_index params' key = map_index params key)
          /\ events_of w w' = []).
Proof.
  split.
  - intros text params Htext Hurl.
    destruct (Get_not_empty_allocated _ _ Hurl) as [m ->].
    unfold AnalyzeText. rewrite Set_allocated.
    destruct (Analyze_conflict c (map_of (<["text" := [text]]> m)) w) as (w' & Hrun & Hev).
    { by rewrite Get_Set_same. }
    { by rewrite Get_Set_other. }
    exists (map_of (<["text" := [text]]> m)), w'. rewrite Hrun.
    repeat split; [by rewrite map_index_insert, decide_True | | done].
    intros key Hkey. by rewrite map_index_insert, decide_False.
  - intros urlStr params Hurl Htext.
    destruct (Get_not_empty_allocated _ _ Htext) as [m ->].
    unfold AnalyzeURL. rewrite Set_allocated.
    destruct (Analyze_conflict c (map_of (<["url" := [urlStr]]> m)) w) as (w' & Hrun & Hev).
    { by rewrite Get_Set_other. }
    { by rewrite Get_Set_same. }
    exists (map_of (<["url" := [urlStr]]> m)), w'. rewrite Hrun.
    repeat split; [by rewrite map_index_insert, decide_True | | done].
    intros key Hkey. by rewrite map_index_insert, decide_False.
Qed.

Lemma doRequest_sent_body {B} `{RequestBody B} c (path method : string)
    (headers : strings_map) (b : B) (response : loc) w res w' req answer :
  doRequest P c path method headers (Some b) response w = (res, w') ->
  EvDo req answer ∈ events_of w w' ->
  Encode b = (http.RequestBody_ req, None).
Proof.
  intros Hrun Hdo.
  assert (prepared P c path method headers (Some b) req) as Hprep by (inv_run Hrun; done).
  apply prepared_inv in Hprep as (u & bodyStr & _ & Hbody & _ & <- & _). exact Hbody.
Qed.

(** A façade method: allocate the result, dispatch, hand back the result. *)
Lemma allocate_then_dispatch {B} `{RequestBody B} c T (path method : string)
    (headers : strings_map) (b : B) w res w' req answer :
  bind (new_result P T)
    (fun l => bind (doRequest P c path method headers (Some b) l) (fun _ => ret l)) w
  = (res, w') ->
  EvDo req answer ∈ events_of w w' ->
  Encode b = (http.RequestBody_ req, None).
Proof.
  unfold bind at 1 2. unfold new_result.
  set (w1 := mkWorld _ _ _). set (l := fresh _).
  destruct (doRequest P c path method headers (Some b) l w1) as [r w2] eqn:Hd.
  intros Hrun Hdo.
  assert (w' = w2) as -> by (destruct r; unfold ret in Hrun; by simplify_eq).
  change (events_of w w2) with (events_of w1 w2) in Hdo.
  by eapply doRequest_sent_body.
Qed.


End DispatcherFacts.

(** * Runs on the test doubles *)

(** The fixture of [TestGetAccountError]: status 200, a document whose [ok] is
    false. *)
Lemma doRequest_returns_envelope_only_if_200_and_ok_witness :
  (doRequest Fake.platform (Fake.client 200 Fake.errorResponseBody) "/" http.MethodPost
     map_nil no_body 0%nat (Fake.world_with Analysis)).1
  = Fail (ErrOkField false).
Proof.
  set (run := doRequest _ _ _ _ _ _ _ _).
  destruct (doRequest_returns_envelope_only_if_200_and_ok Fake.platform
              (Fake.client 200 Fake.errorResponseBody) "/" http.MethodPost map_nil no_body
              0%nat (Fake.world_with Analysis) run.1 run.2 (surjective_pairing run))
    as [_ Hnot_ok].
  eapply Hnot_ok.
  - vm_compute. left.
  - reflexivity.
  - vm_compute. right. left.
  - vm_compute. reflexivity.
  - reflexivity.
Defined.







(** [TestHTTPRequestBodyFailure]. *)
Lemma doRequest_encoding_failure_witness :
  exists e w',
    doRequest Fake.platform (Fake.client 200 "") "/" http.MethodPost map_nil
      (Some mk_faultyBody) 0%nat (Fake.world_with Analysis) = (Fail e, w')
    /\ w' = Fake.world_with Analysis
    /\ events_of (Fake.world_with Analysis) w' = []
    /\ request_construction_failure e = true
    /\ e = ErrBodyEncoding "bad body".
Proof.
  destruct (doRequest_encoding_failure Fake.platform (Fake.client 200 "") "/"
              http.MethodPost map_nil mk_faultyBody 0%nat (Fake.world_with Analysis)
              "" "bad body" eq_refl) as (e & w' & Hrun & Hw & Hev & Hkind & Herr).
  exists e, w'. repeat split; try done.
  by apply (Herr "https://api.textrazor.com/").
Defined.

(** The rows of [analyzeTests] with a nil map and with both "text" and "url". *)
Lemma Analyze_validates_before_dispatch_witness :
  (exists e w',
      Analyze Fake.platform (Fake.client 200 Fake.dictDeleteResponseBody) map_nil
        Fake.empty_world = (Fail e, w')
      /\ validation_error e = true
      /\ events_of Fake.empty_world w' = [])
  /\ (exists e w',
        Analyze Fake.platform (Fake.client 200 Fake.dictDeleteResponseBody)
          (map_of {[ "text" := [Fake.testText]; "url" := [Fake.testURL];
                     "extractors" := ["entities"; "entailments"] ]})
          Fake.empty_world = (Fail e, w')
        /\ validation_error e = true
        /\ events_of Fake.empty_world w' = []).
Proof.
  split.
  - destruct (Analyze_validates_before_dispatch Fake.platform
                (Fake.client 200 Fake.dictDeleteResponseBody) map_nil Fake.empty_world)
      as (e & w' & Hrun & Hkind & Hev & _).
    { left. split; reflexivity. }
    by exists e, w'.
  - destruct (Analyze_validates_before_dispatch Fake.platform
                (Fake.client 200 Fake.dictDeleteResponseBody)
                (map_of {[ "text" := [Fake.testText]; "url" := [Fake.testURL];
                           "extractors" := ["entities"; "entailments"] ]})
                Fake.empty_world)
      as (e & w' & Hrun & Hkind & Hev & _).
    { right. left. split; by vm_compute. }
    by exists e, w'.
Defined.

(** [AnalyzeText] with the empty text on a map that holds a URL and an
    extractor: "text" is set to the empty string, which [Get] cannot tell from
    an absent key, so the checks pass and the request goes to the transport. *)
Lemma AnalyzeText_AnalyzeURL_on_conflicting_params_counterexample :
  let params := map_of {[ "url" := [Fake.testURL]; "extractors" := ["entities"] ]} in
  let call := AnalyzeText Fake.platform (Fake.client 200 Fake.dictDeleteResponseBody)
                "" params Fake.empty_world in
  Params.Get params "url" = Fake.testURL
  /\ map_index call.1 "text" = [""]
  /\ call.2.1 = Return 0%nat
  /\ (exists req answer, events_of Fake.empty_world call.2.2
                         = [EvDo req answer; EvUnmarshal 0%nat None])
  /\ (forall e, call.2.1 <> Fail e).
Proof.
  intros params call. split; [by vm_compute|]. split; [by vm_compute|].
  split; [by vm_compute|]. split.
  - eexists _, _. by vm_compute.
  - intros e. by vm_compute.
Qed.

(** The row of [analyzeTests] with both keys, reached through [AnalyzeText]
    and through [AnalyzeURL]. *)
Lemma AnalyzeText_AnalyzeURL_on_conflicting_params_witness :
  (exists params' w',
      AnalyzeText Fake.platform (Fake.client 200 Fake.dictDeleteResponseBody) Fake.testText
        (map_of {[ "url" := [Fake.testURL]; "extractors" := ["entities"] ]})
        Fake.empty_world = (params', (Fail ErrURLOrText, w'))
      /\ map_index params' "text" = [Fake.testText]
      /\ map_index params' "url" = [Fake.testURL]
      /\ events_of Fake.empty_world w' = [])
  /\ (exists params' w',
        AnalyzeURL Fake.platform (Fake.client 200 Fake.dictDeleteResponseBody) Fake.testURL
          (map_of {[ "text" := [Fake.testText]; "extractors" := ["entities"] ]})
          Fake.empty_world = (params', (Fail ErrURLOrText, w'))
        /\ map_index params' "url" = [Fake.testURL]
        /\ map_index params' "text" = [Fake.testText]
        /\ events_of Fake.empty_world w' = []).
Proof.
  destruct (AnalyzeText_AnalyzeURL_on_conflicting_params Fake.platform
              (Fake.client 200 Fake.dictDeleteResponseBody) Fake.empty_world)
    as [Htext Hurl].
  split.
  - destruct (Htext Fake.testText
                (map_of {[ "url" := [Fake.testURL]; "extractors" := ["entities"] ]}))
      as (params' & w' & Hrun & Hset & Hkeep & Hev); [done | by vm_compute |].
    exists params', w'. repeat split; try done. by rewrite Hkeep.
  - destruct (Hurl Fake.testURL
                (map_of {[ "text" := [Fake.testText]; "extractors" := ["entities"] ]}))
      as (params' & w' & Hrun & Hset & Hkeep & Hev); [done | by vm_compute |].
    exists params', w'. repeat split; try done. by rewrite Hkeep.
Defined.



(** * More of the client *)

(** ** Escaping *)

Section EscapeFacts.

Lemma byte_of_byte_val (c : ascii) : byte_of (byte_val c) = c.
Proof.
  unfold byte_of, byte_val. pose proof (N_ascii_bounded c).
  rewrite Z.mod_small by lia. rewrite N2Z.id. apply ascii_N_embedding.
Qed.

Lemma in_all_bytes (c : ascii) : c ∈ all_bytes.
Proof.
  unfold all_bytes. apply list_elem_of_fmap. exists (byte_val c).
  split; [by rewrite byte_of_byte_val|].
  apply elem_of_seqZ. pose proof (N_ascii_bounded c). unfold byte_val. lia.
Qed.

Lemma for_all_bytes (P : ascii -> bool) :
  forallb P all_bytes = true -> forall c, P c = true.
Proof.
  intros Hall c. rewrite forallb_forall in Hall. apply Hall.
  apply list_elem_of_In, in_all_bytes.
Qed.

Lemma QueryEscape_cons (c : ascii) (s : string) :
  url.QueryEscape (String c s) = escape_byte c ++ url.QueryEscape s.
Proof.
  unfold escape_byte. cbn [url.QueryEscape].
  destruct (Ascii.eqb c " "); [done|]. by destruct (url.shouldEscape c).
Qed.

Lemma escape_byte_alphabet (c : ascii) :
  forallb escaped_byte (list_ascii_of_string (escape_byte c)) = true.
Proof.
  revert c. apply for_all_bytes. by vm_compute.
Qed.

Lemma list_ascii_of_append (a b : string) :
  list_ascii_of_string (a ++ b) = (list_ascii_of_string a ++ list_ascii_of_string b)%list.
Proof. induction a as [|x a IH]; [done|]. rewrite append_cons. simpl. by f_equal. Qed.

Lemma QueryEscape_alphabet (s : string) :
  forallb escaped_byte (list_ascii_of_string (url.QueryEscape s)) = true.
Proof.
  induction s as [|c s IH]; [done|].
  rewrite QueryEscape_cons, list_ascii_of_append, forallb_app, IH.
  by rewrite escape_byte_alphabet.
Qed.

Lemma QueryEscape_no (c : ascii) (s : string) :
  escaped_byte c = false -> ~ occurs c (url.QueryEscape s).
Proof.
  intros Hc Hin. pose proof (QueryEscape_alphabet s) as Hall.
  rewrite forallb_forall in Hall. specialize (Hall c Hin). congruence.
Qed.

(** Reading back the first byte of an escaped string. *)
Lemma unescape_head_escape_byte (c : ascii) (rest : string) :
  unescape_head (escape_byte c ++ rest) = Some (c, rest).
Proof.
  destruct c as [[] [] [] [] [] [] [] []]; reflexivity.
Qed.

Lemma escape_byte_not_empty (c : ascii) (rest : string) : escape_byte c ++ rest <> "".
Proof.
  intros H. pose proof (unescape_head_escape_byte c rest) as Hu. by rewrite H in Hu.
Qed.

Lemma QueryEscape_inj (s1 s2 : string) :
  url.QueryEscape s1 = url.QueryEscape s2 -> s1 = s2.
Proof.
  revert s2. induction s1 as [|c1 s1 IH]; intros [|c2 s2]; rewrite ?QueryEscape_cons.
  - done.
  - intros H. symmetry in H. by apply escape_byte_not_empty in H.
  - intros H. by apply escape_byte_not_empty in H.
  - intros H. apply (f_equal unescape_head) in H.
    rewrite !unescape_head_escape_byte in H. injection H as -> H. f_equal. by apply IH.
Qed.

End EscapeFacts.
(** ** What [Encode] writes *)

Section WrittenPairs.

Implicit Types (v p q : strings_map) (k key : string) (ks : list string).

Lemma pairs_in_order_app v ks1 ks2 :
  pairs_in_order v (ks1 ++ ks2) = (pairs_in_order v ks1 ++ pairs_in_order v ks2)%list.
Proof. unfold pairs_in_order. apply flat_map_app. Qed.

Lemma pairs_of_one_key k key (vs : list string) :
  pairs_of key (map (pair k) vs) = if decide (k = key) then map (pair k) vs else [].
Proof.
  unfold pairs_of. induction vs as [|x vs IH]; [by case_decide|].
  cbn [map]. rewrite filter_cons, IH. simpl. by case_decide.
Qed.

(** Among the pairs of a run over distinct keys, those of one key are its
    values, in order. *)
Lemma pairs_of_pairs_in_order v ks key :
  NoDup ks ->
  pairs_of key (pairs_in_order v ks)
  = if decide (key ∈ ks) then map (pair key) (map_index v key) else [].
Proof.
  unfold pairs_of. induction ks as [|k ks IH]; intros Hnd.
  - by rewrite decide_False by apply not_elem_of_nil.
  - apply NoDup_cons in Hnd as [Hk Hnd]. cbn [pairs_in_order flat_map].
    rewrite filter_app. fold (pairs_of key (map (pair k) (map_index v k))).
    rewrite pairs_of_one_key. fold (pairs_in_order v ks). rewrite (IH Hnd).
    destruct (decide (k = key)) as [->|Hne].
    + rewrite (decide_True (P := key ∈ key :: ks)) by left.
      rewrite decide_False by done. apply app_nil_r.
    + destruct (decide (key ∈ ks)) as [Hin|Hout].
      * rewrite decide_True by by right. done.
      * rewrite decide_False; [done|]. rewrite elem_of_cons. by intros [|].
Qed.

Lemma sorted_keys_NoDup v : NoDup (url.sort_Strings (url.keys_of v)).
Proof. rewrite sort_Strings_Permutation. apply keys_of_NoDup. Qed.

Lemma sorted_keys_elem v k : k ∈ url.sort_Strings (url.keys_of v) <-> k ∈ url.keys_of v.
Proof. by rewrite sort_Strings_Permutation. Qed.

Lemma written_pairs_of v key :
  pairs_of key (written_pairs v) = map (pair key) (map_index v key).
Proof.
  unfold written_pairs. rewrite pairs_of_pairs_in_order by apply sorted_keys_NoDup.
  case_decide as Hin; [done|].
  destruct (map_index v key) as [|x vs] eqn:Hidx; [done|].
  exfalso. apply Hin, sorted_keys_elem, keys_of_index. by rewrite Hidx.
Qed.

Lemma Encode_written_pairs v : url.Encode v = encode_pairs (written_pairs v).
Proof. apply Encode_ranging_pairs. Qed.

Lemma pairs_but_one_key k key (vs : list string) :
  pairs_but key (map (pair k) vs) = if decide (k = key) then [] else map (pair k) vs.
Proof.
  unfold pairs_but. induction vs as [|x vs IH]; [by case_decide|].
  cbn [map]. rewrite filter_cons, IH. simpl. by repeat case_decide.
Qed.

Lemma pairs_but_pairs_in_order v ks key :
  pairs_but key (pairs_in_order v ks) = pairs_in_order v (filter (fun k => k <> key) ks).
Proof.
  unfold pairs_but. induction ks as [|k ks IH]; [done|].
  cbn [pairs_in_order flat_map]. rewrite filter_app.
  fold (pairs_but key (map (pair k) (map_index v k))). rewrite pairs_but_one_key.
  fold (pairs_in_order v ks). rewrite IH, filter_cons.
  destruct (decide (k = key)) as [->|Hne].
  - by rewrite decide_False by (intros Hkk; by apply Hkk).
  - by rewrite decide_True by done.
Qed.

Lemma pairs_in_order_agree v1 v2 ks :
  (forall k, k ∈ ks -> map_index v1 k = map_index v2 k) ->
  pairs_in_order v1 ks = pairs_in_order v2 ks.
Proof.
  induction ks as [|k ks IH]; intros Hsame; [done|].
  cbn [pairs_in_order flat_map]. rewrite (Hsame k) by left.
  f_equal. apply IH. intros k' Hk'. apply Hsame. by right.
Qed.

(** Two maps that differ under one key at most write the same pairs for all
    the other keys, in the same order. *)
Lemma written_pairs_frame p q key :
  (forall k, k <> key -> map_index p k = map_index q k) ->
  pairs_but key (written_pairs p) = pairs_but key (written_pairs q).
Proof.
  intros Hsame. unfold written_pairs. rewrite !pairs_but_pairs_in_order.
  rewrite (pairs_in_order_filter p), (pairs_in_order_filter q).
  rewrite !list_filter_filter.
  set (l1 := filter _ (url.sort_Strings (url.keys_of p))).
  set (l2 := filter _ (url.sort_Strings (url.keys_of q))).
  assert (l1 = l2) as Hl.
  { apply sorted_arrangement_unique;
      try (apply StronglySorted_filter_le, sort_Strings_Sorted).
    apply NoDup_Permutation; try (apply NoDup_filter, sorted_keys_NoDup).
    intros k. unfold l1, l2. rewrite !list_elem_of_filter, !sorted_keys_elem.
    split; intros [[Hvalues Hne] _].
    - rewrite (Hsame k Hne) in Hvalues. split; [done|]. by apply keys_of_index.
    - rewrite <- (Hsame k Hne) in Hvalues. split; [done|]. by apply keys_of_index. }
  rewrite <- Hl. apply pairs_in_order_agree.
  intros k Hk. unfold l1 in Hk. apply list_elem_of_filter in Hk as [[_ Hne] _].
  by apply Hsame.
Qed.

End WrittenPairs.
(** ** Payloads can be read back *)

Section PayloadFacts.

Lemma occurs_append (c : ascii) (a b : string) :
  occurs c (a ++ b) <-> occurs c a \/ occurs c b.
Proof. unfold occurs. rewrite list_ascii_of_append. apply in_app_iff. Qed.

Lemma cut_at_first (sep : ascii) (a b : string) :
  ~ occurs sep a -> cut sep (a ++ String sep b) = (a, Some b).
Proof.
  induction a as [|x a IH]; intros Hno.
  - simpl. by rewrite Ascii.eqb_refl.
  - rewrite append_cons. cbn [cut].
    destruct (Ascii.eqb_spec x sep) as [->|Hne]; [by destruct Hno; left|].
    rewrite IH; [done|]. intros Hin. apply Hno. by right.
Qed.

Lemma cut_without (sep : ascii) (a : string) : ~ occurs sep a -> cut sep a = (a, None).
Proof.
  induction a as [|x a IH]; intros Hno; [done|]. cbn [cut].
  destruct (Ascii.eqb_spec x sep) as [->|Hne]; [by destruct Hno; left|].
  rewrite IH; [done|]. intros Hin. apply Hno. by right.
Qed.

Lemma encode_pair_cut (kv : string * string) :
  cut "=" (encode_pair kv) = (url.QueryEscape kv.1, Some (url.QueryEscape kv.2)).
Proof. apply cut_at_first, QueryEscape_no. reflexivity. Qed.

Lemma encode_pair_inj (kv1 kv2 : string * string) :
  encode_pair kv1 = encode_pair kv2 -> kv1 = kv2.
Proof.
  intros H. apply (f_equal (cut "=")) in H. rewrite !encode_pair_cut in H.
  injection H as Hk Hv. apply QueryEscape_inj in Hk, Hv.
  destruct kv1, kv2. simpl in *. by subst.
Qed.

Lemma encode_pair_no_ampersand (kv : string * string) : ~ occurs "&" (encode_pair kv).
Proof.
  unfold encode_pair. rewrite !occurs_append. intros [Hk|[Heq|Hv]].
  - by apply QueryEscape_no in Hk.
  - by destruct Heq as [|[]].
  - by apply QueryEscape_no in Hv.
Qed.

Lemma encode_pairs_cut (kv : string * string) (rest : list (string * string)) :
  cut "&" (encode_pairs (kv :: rest))
  = (encode_pair kv, match rest with [] => None | _ => Some (encode_pairs rest) end).
Proof.
  destruct rest as [|kv' rest].
  - apply cut_without, encode_pair_no_ampersand.
  - rewrite encode_pairs_cons. apply cut_at_first, encode_pair_no_ampersand.
Qed.

Lemma encode_pairs_not_empty (kv : string * string) (rest : list (string * string)) :
  encode_pairs (kv :: rest) <> "".
Proof.
  intros H. apply (f_equal (cut "&")) in H. rewrite encode_pairs_cut in H.
  injection H as H _. pose proof (encode_pair_length kv) as Hlen. rewrite H in Hlen.
  simpl in Hlen. lia.
Qed.

(** A payload stands for one list of pairs only. *)
Lemma encode_pairs_inj (l1 l2 : list (string * string)) :
  encode_pairs l1 = encode_pairs l2 -> l1 = l2.
Proof.
  revert l2. induction l1 as [|kv1 l1 IH]; intros [|kv2 l2] H.
  - done.
  - symmetry in H. by apply encode_pairs_not_empty in H.
  - by apply encode_pairs_not_empty in H.
  - apply (f_equal (cut "&")) in H. rewrite !encode_pairs_cut in H.
    injection H as Hhead Hrest. apply encode_pair_inj in Hhead as ->. f_equal.
    destruct l1 as [|a l1], l2 as [|b l2]; try done.
    apply IH. congruence.
Qed.

Lemma map_pair_inj (key : string) (l1 l2 : list string) :
  map (pair key) l1 = map (pair key) l2 -> l1 = l2.
Proof.
  intros H. apply (f_equal (map snd)) in H. by rewrite !map_map, !map_id in H.
Qed.

End PayloadFacts.
(** ** Properties of the parameter map and its payload *)

(** Escaped text holds unreserved bytes, '+' and '%' only, so none of the
    separators '&' and '=' and no space; and escaping loses nothing: different
    strings have different escaped forms. *)
Theorem QueryEscape_alphabet_and_injective :
  (forall (s : string) (c : ascii),
      occurs c (url.QueryEscape s) -> escaped_byte c = true)
  /\ (forall s : string,
        ~ occurs "&" (url.QueryEscape s)
        /\ ~ occurs "=" (url.QueryEscape s)
        /\ ~ occurs " " (url.QueryEscape s))
  /\ (forall s1 s2 : string, url.QueryEscape s1 = url.QueryEscape s2 -> s1 = s2).
Proof.
  split; [|split].
  - intros s c Hc. pose proof (QueryEscape_alphabet s) as Hall.
    rewrite forallb_forall in Hall. by apply Hall.
  - intros s. repeat split; by apply QueryEscape_no.
  - apply QueryEscape_inj.
Qed.

Lemma Encode_ranging_written (v : strings_map) (keys : list string) :
  url.range_order v keys -> url.Encode_ranging keys v = encode_pairs (written_pairs v).
Proof.
  intros Hkeys. rewrite <- Encode_written_pairs. unfold url.Encode.
  by apply Encode_ranging_agree; [|apply range_order_keys_of|].
Qed.

(** Whatever order the map is enumerated in, the payload of [Encode] is the
    list of written pairs, and for every key the pairs written with that key
    are the values the map holds under it, each once and in order: nothing is
    left out and nothing is written for a key without values. *)
Theorem Encode_writes_every_value_once (v : strings_map) (keys : list string) :
  url.range_order v keys ->
  url.Encode_ranging keys v = encode_pairs (written_pairs v)
  /\ forall key, pairs_of key (written_pairs v) = map (pair key) (map_index v key).
Proof.
  intros Hkeys. split; [by apply Encode_ranging_written | apply written_pairs_of].
Qed.

Lemma Encode_writes_every_value_once_witness :
  let v := map_of {[ "text" := ["a"; "b"]; "extractors" := ["entities"] ]} in
  url.Encode_ranging ["text"; "extractors"] v = "extractors=entities&text=a&text=b"
  /\ pairs_of "text" (written_pairs v) = [("text", "a"); ("text", "b")]
  /\ pairs_of "url" (written_pairs v) = [].
Proof.
  intros v.
  destruct (Encode_writes_every_value_once v ["text"; "extractors"]) as [Hpayload Hpairs].
  { unfold url.range_order. vm_compute. apply perm_swap. }
  split; [|split].
  - rewrite Hpayload. by vm_compute.
  - rewrite Hpairs. by vm_compute.
  - rewrite Hpairs. by vm_compute.
Defined.

(** Two parameter maps with the same payload hold the same values under
    every key. *)
Theorem Encode_injective (p q : strings_map) (ks1 ks2 : list string) :
  url.range_order p ks1 ->
  url.range_order q ks2 ->
  url.Encode_ranging ks1 p = url.Encode_ranging ks2 q ->
  forall key, map_index p key = map_index q key.
Proof.
  intros H1 H2 Hsame key.
  rewrite !Encode_ranging_written in Hsame by done. apply encode_pairs_inj in Hsame.
  apply (map_pair_inj key). by rewrite <- !written_pairs_of, Hsame.
Qed.

(** A map with a key that holds no value and the empty map: one payload, and
    the same (empty) values under the key. *)
Lemma Encode_injective_witness :
  url.Encode_ranging ["text"] (map_of {[ "text" := [] ]}) = url.Encode_ranging [] (map_of ∅)
  /\ map_index (map_of {[ "text" := [] ]}) "text" = map_index (map_of ∅) "text".
Proof.
  split; [by vm_compute|].
  apply (Encode_injective (map_of {[ "text" := [] ]}) (map_of ∅) ["text"] []).
  - unfold url.range_order. by vm_compute.
  - unfold url.range_order. by vm_compute.
  - by vm_compute.
Defined.

(** [Set] on an allocated map never panics and replaces whatever the key
    held: afterwards [Get] returns the value, the payload holds exactly one
    pair for the key, and the pairs of every other key are written as
    before.  On a nil map [Set] panics. *)
Theorem Params_Set_replaces (m : gmap string (list string)) (key value : string) :
  exists m',
    Params.Set_ (map_of m) key value = Some (map_of m')
    /\ Params.Get (map_of m') key = value
    /\ pairs_of key (written_pairs (map_of m')) = [(key, value)]
    /\ pairs_but key (written_pairs (map_of m')) = pairs_but key (written_pairs (map_of m))
    /\ Params.Set_ map_nil key value = None.
Proof.
  exists (<[key := [value]]> m). split; [done|]. split; [apply Get_Set_same|].
  split; [|split; [|done]].
  - by rewrite written_pairs_of, map_index_insert, decide_True.
  - apply written_pairs_frame. intros k Hk. by rewrite map_index_insert, decide_False.
Qed.

Lemma pairs_but_all (key : string) (pairs : list (string * string)) :
  pairs_of key pairs = [] -> pairs_but key pairs = pairs.
Proof.
  unfold pairs_of, pairs_but. induction pairs as [|kv pairs IH]; [done|].
  rewrite !filter_cons. destruct (decide (kv.1 = key)) as [Heq|Hne]; [done|].
  intros H. rewrite decide_True by done. f_equal. by apply IH.
Qed.

Lemma map_index_Del (p : strings_map) (key k : string) :
  map_index (Params.Del p key) k = if decide (key = k) then [] else map_index p k.
Proof.
  destruct p as [|m]; simpl; [by case_decide|].
  rewrite lookup_delete. by case_decide.
Qed.

(** [Del] never panics, not even on a nil map.  Afterwards [Get] returns the
    empty string for the key and the payload is the old one without the
    pairs of that key; so deleting a key that was set or added on a map that
    did not hold it gives back the payload of that map. *)
Theorem Params_Del_removes (p : strings_map) (key : string) :
  Params.Get (Params.Del p key) key = ""
  /\ written_pairs (Params.Del p key) = pairs_but key (written_pairs p)
  /\ url.Encode (Params.Del p key) = encode_pairs (pairs_but key (written_pairs p))
  /\ (forall p0 : strings_map,
        map_index p0 key = [] ->
        (forall k, k <> key -> map_index p k = map_index p0 k) ->
        url.Encode (Params.Del p key) = url.Encode p0)
  /\ Params.Del map_nil key = map_nil.
Proof.
  assert (written_pairs (Params.Del p key) = pairs_but key (written_pairs p)) as Hpairs.
  { rewrite <- (pairs_but_all key (written_pairs (Params.Del p key))).
    - apply written_pairs_frame. intros k Hk. by rewrite map_index_Del, decide_False.
    - by rewrite written_pairs_of, map_index_Del, decide_True. }
  split; [by rewrite Get_head, map_index_Del, decide_True|].
  split; [done|]. split; [by rewrite Encode_written_pairs, Hpairs|]. split; [|done].
  intros p0 Hnone Hsame. unfold url.Encode.
  apply Encode_ranging_agree; try apply range_order_keys_of.
  intros k. rewrite map_index_Del. case_decide as Hk; [by subst|]. by apply Hsame.
Qed.

(** The sequence of [TestParams]: two values added under "text", replaced by
    [Set], the key deleted: the payload is that of the map before. *)
Lemma Params_Del_removes_witness :
  let p0 := map_of {[ "extractors" := ["entities"; "entailments"] ]} in
  let p := map_of (<["text" := ["Barclays"]]> {[ "extractors" := ["entities"; "entailments"] ]}) in
  Params.Get (Params.Del p "text") "text" = ""
  /\ url.Encode (Params.Del p "text") = url.Encode p0
  /\ url.Encode p0 = "extractors=entities&extractors=entailments".
Proof.
  intros p0 p.
  destruct (Params_Del_removes p "text") as (Hget & _ & _ & Hback & _).
  split; [exact Hget|]. split; [|by vm_compute].
  apply Hback; [by vm_compute|].
  intros k Hk. unfold p. by rewrite map_index_insert, decide_False.
Defined.

(** ** What the dispatcher leaves alone *)

Section DispatcherFrame.

Context {float32 Payload : Type} (P : Platform float32 Payload).

Implicit Types (w : World float32 Payload) (c : Client).

Lemma fresh_not_allocated w (l : loc) (r : HTTPResponse float32) :
  envelopes w !! l = Some r -> fresh (dom (envelopes w)) <> l.
Proof. intros Hl Heq. rewrite <- Heq, fresh_envelope in Hl. done. Qed.

Lemma kept_beside_fresh (m : gmap loc (HTTPResponse float32)) l r x :
  m !! l = Some r -> <[fresh (dom m) := x]> m !! l = Some r.
Proof.
  intros Hl. rewrite lookup_insert_ne; [done|]. intros Heq.
  assert (m !! fresh (dom m) = None) as Hf by apply not_elem_of_dom, is_fresh.
  congruence.
Qed.

Lemma one_new_key (m : gmap loc (HTTPResponse float32)) f x l1 l2 :
  m !! l1 = None -> m !! l2 = None ->
  is_Some (<[f := x]> m !! l1) -> is_Some (<[f := x]> m !! l2) -> l1 = l2.
Proof.
  intros H1 H2 [r1 Hr1] [r2 Hr2].
  destruct (decide (f = l1)) as [Heq1|Hne1]; destruct (decide (f = l2)) as [Heq2|Hne2].
  - congruence.
  - rewrite lookup_insert_ne in Hr2 by done. congruence.
  - rewrite lookup_insert_ne in Hr1 by done. congruence.
  - rewrite lookup_insert_ne in Hr1 by done. congruence.
Qed.

Lemma none_new_key (m : gmap loc (HTTPResponse float32)) l1 l2 :
  m !! l1 = None -> m !! l2 = None -> is_Some (m !! l1) -> is_Some (m !! l2) -> l1 = l2.
Proof. intros H1 _ [r1 Hr1]. congruence. Qed.

Lemma type_kept (m : gmap loc (Result Payload)) response (t t' : Result Payload) :
  m !! response = Some t -> result_type t' = result_type t ->
  result_type <$> <[response := t']> m !! response = result_type <$> m !! response.
Proof. intros Ht Hty. rewrite lookup_insert_eq, Ht. simpl. by rewrite Hty. Qed.

Ltac solve_untouched :=
  rewrite ?insert_insert_eq; split; simpl;
  [ rewrite ?events_of_app, ?events_of_app2, ?events_of_same, <- ?app_assoc, ?app_nil_r;
    reflexivity
  | intros l0 r0 Hl0; first [exact Hl0 | by apply kept_beside_fresh]
  | first [apply none_new_key | apply one_new_key]
  | intros l0 Hl0; rewrite ?lookup_insert_ne by done; done
  | first [ done
          | eapply type_kept; [eassumption | by rewrite ?set_back_reference_type] ] ].

Lemma doRequest_untouched {B} `{RequestBody B} c (path method : string)
    (headers : strings_map) (body : option B) (response : loc) w res w' :
  doRequest P c path method headers body response w = (res, w') ->
  untouched response w w'.
Proof.
  unfold doRequest.
  unfold ParseBody, client_Do, bind, try, ret, fail, panic, log, new_HTTPResponse,
    setHTTPResponse, load_envelope.
  intros Hrun.
  repeat (rewrite ?lookup_insert_eq in *; case_match; simplify_eq/=).
  all: solve_untouched.
Qed.
End DispatcherFrame.

(** ** More of the dispatcher *)

Section DispatcherMore.

Context {float32 Payload : Type} (P : Platform float32 Payload).

Implicit Types (w : World float32 Payload) (c : Client).

(** Reading a run off its exit. *)
Ltac read_events :=
  repeat match goal with
    | H : context [events_of ?w ?w] |- _ => rewrite events_of_same in H
    | H : context [events_of _ (mkWorld _ _ (trace _ ++ _))] |- _ => rewrite events_of_app in H
    | Hev : events_of ?w ?w' = _, H : context [events_of ?w ?w'] |- _ =>
        rewrite Hev in H
    | H : _ ∈ [] |- _ => by apply elem_of_nil in H
    | H : _ ∈ _ :: _ |- _ => apply elem_of_cons in H as [H|H]; simplify_eq
    end.

Ltac exits Hrun :=
  apply doRequest_run in Hrun; inversion Hrun; subst; clear Hrun; read_events.


(** [doRequest] writes to nothing it was not given: the envelopes that
    existed are unchanged, at most one envelope is new, every result other
    than the target is unchanged, and the target keeps its type. *)
Theorem doRequest_leaves_the_heap_alone {B} `{RequestBody B} c (path method : string)
    (headers : strings_map) (body : option B) (response : loc) w res w' :
  doRequest P c path method headers body response w = (res, w') ->
  (forall l r, envelopes w !! l = Some r -> envelopes w' !! l = Some r)
  /\ (forall l1 l2,
        envelopes w !! l1 = None -> envelopes w !! l2 = None ->
        is_Some (envelopes w' !! l1) -> is_Some (envelopes w' !! l2) -> l1 = l2)
  /\ (forall l, l <> response -> results w' !! l = results w !! l)
  /\ result_type <$> results w' !! response = result_type <$> results w !! response.
Proof.
  intros Hrun. by destruct (doRequest_untouched P _ _ _ _ _ _ _ _ _ Hrun).
Qed.


(** When the transport answers 200 and the decoder fails on the body,
    [doRequest] returns the parsing error holding the decoder's error; the
    envelope with the status, headers and body is there all the same. *)
Theorem doRequest_decode_failure {B} `{RequestBody B} c (path method : string)
    (headers : strings_map) (body : option B) (response : loc) w res w' l err :
  doRequest P c path method headers body response w = (res, w') ->
  EvUnmarshal l (Some err) ∈ events_of w w' ->
  res = Fail (ErrBodyParsing err)
  /\ exists req resp r,
       EvDo req (inl resp) ∈ events_of w w'
       /\ http.StatusCode resp = http.StatusOK
       /\ envelopes w !! l = None
       /\ envelopes w' !! l = Some r
       /\ Status r = http.StatusOK
       /\ Headers r = http.ResponseHeader resp
       /\ http.Body resp = http.reader_of (Body r).
Proof.
  intros Hrun Hun. exits Hrun.
  split; [done|].
  match goal with
  | Ha : attached _ _ _ _ _ _ _, Ht : httpTransport _ ?req = inl ?resp,
    Hev : events_of _ _ = _ |- _ =>
      destruct Ha as [Hfresh (r & Hr & Hstatus & Hheaders & Hbody) _];
      exists req, resp, r; rewrite Hev
  end.
  repeat split; try done; [set_solver | congruence | congruence].
Qed.

(** The envelope [doRequest] returns is new, holds status 200 and [Ok] true,
    and is the one the result was given: a result of any type but
    [EmptyResponse] points to it. *)
Theorem doRequest_returned_envelope {B} `{RequestBody B} c (path method : string)
    (headers : strings_map) (body : option B) (response : loc) w l w' :
  doRequest P c path method headers body response w = (Return l, w') ->
  exists t t' r,
    results w !! response = Some t
    /\ results w' !! response = Some t'
    /\ result_type t' = result_type t
    /\ (result_type t <> EmptyResponse -> result_HTTPResponse t' = Some l)
    /\ envelopes w !! l = None
    /\ envelopes w' !! l = Some r
    /\ Status r = http.StatusOK
    /\ Ok r = true.
Proof.
  intros Hrun. apply doRequest_run in Hrun. inversion Hrun; subst; clear Hrun.
  match goal with
  | Ha : attached _ _ _ _ _ _ _, Hok : envelope_Ok _ _ _ |- _ =>
      destruct Ha as [Hfresh (r & Hr & Hstatus & _) (t' & Ht' & Hty & Href)];
      destruct Hok as (r' & Hr' & Hok)
  end.
  simplify_eq.
  match goal with
  | Ht : results w !! response = Some ?t |- _ =>
      exists t, t', r; repeat split; try eassumption; try congruence;
      intros Hne; rewrite Href; unfold set_back_reference; by destruct (result_type t)
  end.
Qed.


End DispatcherMore.

(** ** The calls of the client *)

Section FacadeFacts.

Context {float32 Payload : Type} (P : Platform float32 Payload).
Context (json_Marshal_Dictionary : Dictionary -> string * option string).
Context (json_Marshal_entries : list Entry.DictionaryEntry -> string * option string).
Context (RoundTrip : Transport -> http.RoundTripper).

Implicit Types (w : World float32 Payload) (c : Client).

(** The heap after [&T{}]. *)
Local Abbreviation allocated T w :=
  (mkWorld (envelopes w)
     (<[fresh (dom (results w)) := mkResult T None (zero_fields P T)]> (results w))
     (trace w)).

Ltac read_events :=
  repeat match goal with
    | H : context [events_of ?w ?w] |- _ => rewrite events_of_same in H
    | H : context [events_of _ (mkWorld _ _ (trace _ ++ _))] |- _ => rewrite events_of_app in H
    | Hev : events_of ?w ?w' = _, H : context [events_of ?w ?w'] |- _ =>
        rewrite Hev in H
    | H : _ ∈ [] |- _ => by apply elem_of_nil in H
    | H : _ ∈ _ :: _ |- _ => apply elem_of_cons in H as [H|H]; simplify_eq
    end.

Ltac exits Hrun :=
  apply doRequest_run in Hrun; inversion Hrun; subst; clear Hrun; read_events.

(** Everything about a request that reached the transport. *)
Lemma sent_request {B} `{RequestBody B} c (path method : string)
    (headers : strings_map) (body : option B) (response : loc) w res w' req answer :
  doRequest P c path method headers body response w = (res, w') ->
  EvDo req answer ∈ events_of w w' ->
  answer = httpTransport c req
  /\ url_ParseRequestURI P
       ((if UseEncryption c then SecureEndpoint c else Endpoint c) ++ path)
     = inl (http.URL req)
  /\ http.Method req = (if String.eqb method "" then http.MethodGet else method)
  /\ encodes body (http.RequestBody_ req)
  /\ (forall key,
        map_index (http.Header req) key
        = if decide ("X-Textrazor-Key" = key)
          then (map_index headers "X-Textrazor-Key" ++ [apiKey c])%list
          else map_index headers key).
Proof.
  intros Hrun Hdo.
  assert (prepared P c path method headers body req /\ answer = httpTransport c req)
    as [Hprep ->] by (exits Hrun; done).
  split; [done|].
  destruct Hprep as [u bodyStr req0 h Hu Hbody Hreq Hadd].
  apply http_NewRequest_inv in Hreq as (Hurl & Hb & Hh & Hmethod). simpl.
  rewrite Hurl, Hb, Hmethod, Hh in *. repeat split; try done.
  intros key. unfold http.Header_Add in Hadd.
  change (textproto.CanonicalMIMEHeaderKey apiKeyHeader) with "X-Textrazor-Key" in *.
  destruct headers as [|m]; simpl in Hadd;
    apply (inj Some) in Hadd; rewrite <- Hadd, map_index_insert; by case_decide.
Qed.

(** A call that allocates its result, dispatches and hands the result back. *)
Lemma typed_dispatch {B} `{RequestBody B} T c (path method : string)
    (headers : strings_map) (body : option B) w res w' :
  bind (new_result P T)
    (fun l => bind (doRequest P c path method headers body l) (fun _ => ret l)) w
  = (res, w') ->
  exists r1,
    doRequest P c path method headers body (fresh (dom (results w))) (allocated T w) = (r1, w')
    /\ (forall l, res = Return l -> l = fresh (dom (results w)) /\ exists e, r1 = Return e).
Proof.
  unfold bind at 1 2. unfold new_result.
  destruct (doRequest _ _ _ _ _ _ _ _) as [r1 w1] eqn:Hd.
  intros Hrun. exists r1.
  destruct r1; unfold ret in Hrun; simplify_eq; (split; [done|]); intros l' [=]; subst; eauto.
Qed.

(** What a dispatch on a newly allocated result returns. *)
Lemma dispatch_valid {B} `{RequestBody B} T c (path method : string)
    (headers : strings_map) (body : option B) w e w' :
  doRequest P c path method headers body (fresh (dom (results w))) (allocated T w)
  = (Return e, w') ->
  valid_envelope w w' e
  /\ (T <> EmptyResponse -> valid_result T w w' (fresh (dom (results w)))).
Proof.
  intros Hrun. apply doRequest_run in Hrun. inversion Hrun; subst; clear Hrun.
  match goal with
  | Ha : attached _ _ _ _ _ _ _, Hok : envelope_Ok _ _ _,
    Ht : results _ !! _ = Some _ |- _ =>
      destruct Ha as [Hfresh (r & Hr & Hstatus & _) (t' & Ht' & Hty & Href)];
      destruct Hok as (r' & Hr' & Hok);
      simpl in Ht, Hfresh; rewrite lookup_insert_eq in Ht
  end.
  simplify_eq. simpl in *.
  assert (valid_envelope w w' e) as Hvalid.
  { split; [done|]. exists r. repeat split; [done|congruence|done]. }
  split; [done|]. intros HT. split; [apply not_elem_of_dom, is_fresh|].
  exists t', e. split; [done|]. split; [done|]. split; [|done].
  rewrite Href. unfold set_back_reference. simpl. by destruct T.
Qed.

(** The route of one dispatch. *)
Lemma dispatch_routed {B} `{RequestBody B} T c (path method : string)
    (headers : strings_map) (body : option B) (ct : option string) (payload : string)
    w res w' :
  doRequest P c path method headers body (fresh (dom (results w))) (allocated T w)
  = (res, w') ->
  method <> "" ->
  headers = match ct with Some t => DefaultHeaders t | None => map_nil end ->
  (forall s, encodes body s -> s = payload) ->
  routed P c w w' method path ct payload.
Proof.
  intros Hrun Hmethod -> Hpayload req answer Hdo.
  change (events_of w w') with (events_of (allocated T w) w') in Hdo.
  destruct (sent_request _ _ _ _ _ _ _ _ _ _ _ Hrun Hdo) as (-> & Hu & Hm & Hb & Hidx).
  apply String.eqb_neq in Hmethod. rewrite Hmethod in Hm.
  repeat split; try done.
  - rewrite Hidx. rewrite decide_False by done. by destruct ct.
  - unfold http.Header_Values.
    change (textproto.CanonicalMIMEHeaderKey apiKeyHeader) with "X-Textrazor-Key".
    rewrite Hidx. rewrite decide_True by done. by destruct ct.
  - by apply Hpayload.
Qed.

Lemma typed_routed {B} `{RequestBody B} T c (path method : string)
    (headers : strings_map) (body : option B) (ct : option string) (payload : string)
    w res w' :
  bind (new_result P T)
    (fun l => bind (doRequest P c path method headers body l) (fun _ => ret l)) w
  = (res, w') ->
  method <> "" ->
  headers = match ct with Some t => DefaultHeaders t | None => map_nil end ->
  (forall s, encodes body s -> s = payload) ->
  routed P c w w' method path ct payload.
Proof.
  intros Hrun. apply typed_dispatch in Hrun as (r1 & Hrun & _).
  by eapply dispatch_routed.
Qed.

Lemma envelope_routed {B} `{RequestBody B} T c (path method : string)
    (headers : strings_map) (body : option B) (ct : option string) (payload : string)
    w res w' :
  bind (new_result P T) (fun l => doRequest P c path method headers body l) w = (res, w') ->
  method <> "" ->
  headers = match ct with Some t => DefaultHeaders t | None => map_nil end ->
  (forall s, encodes body s -> s = payload) ->
  routed P c w w' method path ct payload.
Proof. intros Hrun. by eapply (dispatch_routed T); [exact Hrun|..]. Qed.

Lemma no_events_routed c w method path ct payload :
  routed P c w w method path ct payload.
Proof. intros req answer Hdo. rewrite events_of_same in Hdo. by apply elem_of_nil in Hdo. Qed.

Lemma allocated_routed c T w method path ct payload :
  routed P c w (allocated T w) method path ct payload.
Proof.
  intros req answer Hdo.
  rewrite events_of_same_trace in Hdo by done. by apply elem_of_nil in Hdo.
Qed.

Lemma encodes_none (s : string) : encodes no_body s -> s = "".
Proof. done. Qed.

Lemma encodes_raw (body s : string) : encodes (Some (mk_rawRequest body)) s -> s = body.
Proof. unfold encodes. by intros [= ->]. Qed.

Lemma encodes_limit_offset (limit offset : Z) (s : string) :
  encodes (Some (map_of {[ "limit" := [utf8.intstring limit];
                           "offset" := [utf8.intstring offset] ]} : strings_map)) s ->
  s = limit_offset_payload limit offset.
Proof.
  unfold encodes. intros Henc. apply (f_equal fst) in Henc.
  unfold Encode, Params_RequestBody, Params.Encode in Henc. cbn [fst] in Henc.
  rewrite <- Henc. apply Encode_limit_offset.
Qed.

Lemma encodes_params (params : strings_map) (s : string) :
  encodes (Some params) s -> s = url.Encode params.
Proof.
  unfold encodes. intros Henc. apply (f_equal fst) in Henc.
  unfold Encode, Params_RequestBody, Params.Encode in Henc. by cbn [fst] in Henc.
Qed.

(** At most one exchange: the events of a dispatch. *)
Lemma events_of_dispatch {B} `{RequestBody B} c (path method : string)
    (headers : strings_map) (body : option B) (response : loc) w res w' :
  doRequest P c path method headers body response w = (res, w') ->
  events_of w w' = []
  \/ (exists req, events_of w w' = [EvDo req (httpTransport c req)])
  \/ (exists req resp l err,
        httpTransport c req = inl resp
        /\ events_of w w' = [EvDo req (inl resp); EvUnmarshal l err]).
Proof.
  intros Hrun.
  apply doRequest_run in Hrun. inversion Hrun; subst; clear Hrun;
    rewrite ?events_of_same, ?events_of_app;
    repeat match goal with Hev : events_of _ _ = _ |- _ => rewrite Hev; clear Hev end;
    first [ by left
          | right; left; eexists; by f_equal; f_equal
          | right; right; by eexists _, _, _, _ ].
Qed.

(** The route of [Analyze]. *)
Lemma calls_route_Analyze c (params : strings_map) w res w' :
  Analyze P c params w = (res, w') ->
  routed P c w w' "POST" "/" (Some contentTypeURL) (url.Encode params).
Proof.
  intros Hrun.
  unfold Analyze in Hrun. unfold bind at 1 in Hrun. unfold new_result in Hrun.
  repeat case_match; try by (unfold fail in Hrun; simplify_eq; apply allocated_routed).
  change (bind (new_result P Analysis)
            (fun l => bind (doRequest P c "/" http.MethodPost
                              (DefaultHeaders contentTypeURL) (Some params) l)
                        (fun _ => ret l)) w = (res, w')) in Hrun.
  refine (typed_routed _ _ _ _ _ _ (Some contentTypeURL) _ _ _ _ Hrun _ _ _);
    [done | done | apply encodes_params].
Qed.

(** A typed result that is handed back is new, has the type of the call and
    points to a new envelope with status 200 and [Ok] true: what
    [checkHTTPResponse] asks of it. *)
Theorem typed_calls_return_checked_results c T (call : M loc) w l w' :
  typed_call P c T call ->
  call w = (Return l, w') ->
  valid_result T w w' l.
Proof.
  intros Hcall Hrun.
  assert (T <> EmptyResponse) as HT by (by destruct Hcall).
  destruct Hcall.
  1: { unfold Analyze in Hrun. unfold bind at 1 in Hrun. unfold new_result in Hrun.
       repeat case_match; try by (unfold fail in Hrun; simplify_eq).
       change (bind (new_result P Analysis)
                 (fun l => bind (doRequest P c "/" http.MethodPost
                                   (DefaultHeaders contentTypeURL) (Some params) l)
                             (fun _ => ret l)) w = (Return l, w')) in Hrun.
       apply typed_dispatch in Hrun as (r1 & Hd & Hres).
       destruct (Hres l eq_refl) as (-> & e & ->).
       apply dispatch_valid in Hd as [_ Hd]. by apply Hd. }
  all: apply typed_dispatch in Hrun as (r1 & Hd & Hres);
    destruct (Hres l eq_refl) as (-> & e & ->);
    apply dispatch_valid in Hd as [_ Hd]; by apply Hd.
Qed.

(** An envelope that is handed back is new and holds status 200 and [Ok]
    true. *)
Theorem envelope_calls_return_checked_envelopes c (call : M loc) w e w' :
  envelope_call P json_Marshal_Dictionary json_Marshal_entries c call ->
  call w = (Return e, w') ->
  valid_envelope w w' e.
Proof.
  intros Hcall Hrun.
  destruct Hcall; by apply (dispatch_valid EmptyResponse) in Hrun as [Hrun _].
Qed.


(** The head of the events of a run that got past the construction of the
    request. *)
Lemma run_sends {B} `{RequestBody B} c (path method : string) (headers : strings_map)
    (body : option B) (response : loc) w res w' :
  run P c path method headers body response w res w' ->
  (forall e, ~ construction_failed P c path method body e) ->
  exists req rest,
    prepared P c path method headers body req
    /\ events_of w w' = EvDo req (httpTransport c req) :: rest.
Proof.
  intros Hrun Hnot. inversion Hrun; subst; clear Hrun;
    rewrite ?events_of_app;
    repeat match goal with Hev : events_of _ _ = _ |- _ => rewrite Hev; clear Hev end;
    try (by edestruct Hnot);
    eexists _, _; (split; [eassumption|]); by f_equal; f_equal.
Qed.





End FacadeFacts.

(** * More runs on the test doubles *)


(** The same dispatch on a heap that holds a second result: that one is
    not written to. *)
Lemma doRequest_leaves_the_heap_alone_witness :
  let w : World Z string :=
    mkWorld ∅ {[ 0%nat := mkResult Account None ""; 1%nat := mkResult Analysis None "" ]} [] in
  let run := doRequest Fake.platform (Fake.client 200 Fake.dictDeleteResponseBody)
               "/account/" http.MethodGet map_nil no_body 0%nat w in
  results run.2 !! 1%nat = Some (mkResult Analysis None "")
  /\ result_type <$> results run.2 !! 0%nat = Some Account.
Proof.
  intros w run.
  destruct (doRequest_leaves_the_heap_alone Fake.platform
              (Fake.client 200 Fake.dictDeleteResponseBody) "/account/" http.MethodGet
              map_nil no_body 0%nat w run.1 run.2 (surjective_pairing run))
    as (_ & _ & Hother & Htype).
  split.
  - etrans; [by apply Hother|]. by vm_compute.
  - etrans; [exact Htype|]. by vm_compute.
Defined.


(** Status 200 and an empty body: the decoder fails. *)
Lemma doRequest_decode_failure_witness :
  let w := Fake.world_with Account in
  let run := doRequest Fake.platform (Fake.client 200 "") "/account/" http.MethodGet
               map_nil no_body 0%nat w in
  run.1 = Fail (ErrBodyParsing "unexpected end of JSON input")
  /\ exists req resp r,
       EvDo req (inl resp) ∈ events_of w run.2
       /\ http.StatusCode resp = http.StatusOK
       /\ envelopes w !! 0%nat = None
       /\ envelopes run.2 !! 0%nat = Some r
       /\ Status r = http.StatusOK
       /\ Headers r = http.ResponseHeader resp
       /\ http.Body resp = http.reader_of (Body r).
Proof.
  intros w run.
  apply (doRequest_decode_failure Fake.platform (Fake.client 200 "") "/account/"
           http.MethodGet map_nil no_body 0%nat w run.1 run.2 0%nat
           "unexpected end of JSON input" (surjective_pairing run)).
  vm_compute. right. left.
Defined.

(** The fixture of [TestDeleteDictionary] on a typed result. *)
Lemma doRequest_returned_envelope_witness :
  let w := Fake.world_with Account in
  let run := doRequest Fake.platform (Fake.client 200 Fake.dictDeleteResponseBody)
               "/account/" http.MethodGet map_nil no_body 0%nat w in
  exists t t' r,
    results w !! 0%nat = Some t
    /\ results run.2 !! 0%nat = Some t'
    /\ result_type t' = result_type t
    /\ (result_type t <> EmptyResponse -> result_HTTPResponse t' = Some 0%nat)
    /\ envelopes w !! 0%nat = None
    /\ envelopes run.2 !! 0%nat = Some r
    /\ Status r = http.StatusOK
    /\ Ok r = true.
Proof.
  intros w run.
  apply (doRequest_returned_envelope Fake.platform
           (Fake.client 200 Fake.dictDeleteResponseBody) "/account/" http.MethodGet
           map_nil no_body 0%nat w 0%nat run.2).
  by vm_compute.
Defined.


(** [GetAccount] answered with 200 and [ok] true. *)
Lemma typed_calls_return_checked_results_witness :
  let c := Fake.client 200 Fake.dictDeleteResponseBody in
  let run := GetAccount Fake.platform c Fake.empty_world in
  run.1 = Return 0%nat /\ valid_result Account Fake.empty_world run.2 0%nat.
Proof.
  intros c run. split; [by vm_compute|].
  apply (typed_calls_return_checked_results Fake.platform c Account
           (GetAccount Fake.platform c) Fake.empty_world 0%nat run.2).
  - constructor.
  - by vm_compute.
Defined.

(** [TestDeleteDictionary]. *)
Lemma envelope_calls_return_checked_envelopes_witness :
  let c := Fake.client 200 Fake.dictDeleteResponseBody in
  let run := DeleteDictionary Fake.platform c "test" Fake.empty_world in
  run.1 = Return 0%nat /\ valid_envelope Fake.empty_world run.2 0%nat.
Proof.
  intros c run. split; [by vm_compute|].
  apply (envelope_calls_return_checked_envelopes Fake.platform
           (fun d => (ID d, None)) (fun l => (String.concat "," (map Entry.ID l), None))
           c (DeleteDictionary Fake.platform c "test") Fake.empty_world 0%nat run.2).
  - constructor.
  - by vm_compute.
Defined.





